(** * Bazaar client argument builders and the make step of Qt Creator

    A shallow embedding of
      - src/plugins/bazaar/bazaarclient.cpp  (argument lists, status-line
        parser, branch.conf reader), and
      - src/plugins/projectexplorer/makestep.cpp (build-step model),
    followed by the properties established about them.

    Layout: the model comes first ([Module Qt] for the toolkit values the
    code manipulates, [Module Bazaar] and [Module ProjectExplorer] for the
    two translation units), then the statements and their proofs. *)

From Stdlib Require Import ZArith List Bool Ascii String Lia.
From Stdlib Require Import Permutation.
Import ListNotations.
Local Open Scope string_scope.
Local Open Scope list_scope.

(* ===================================================================== *)
(** * Toolkit values                                                      *)
(* ===================================================================== *)

Module Qt.

(** A [QString] is a sequence of [QChar]s.  The embedding keeps the
    characters of the Latin-1 range, which is the range of every literal of
    the two files ([QLatin1String], [QLatin1Char]). *)
Definition QChar := ascii.
Definition QString := string.
Definition QStringList := list QString.

(** [QString::isEmpty]. *)
Definition isEmpty (s : QString) : bool :=
  match s with
  | EmptyString => true
  | String _ _ => false
  end.

(** [QString::operator[]] at an index; the code only indexes below
    [length], where the result is [Some]. *)
Definition at_ (s : QString) (i : nat) : option QChar := String.get i s.

(** [c == QLatin1Char(x)] for a character read by [at_]. *)
Definition isChar (c : option QChar) (x : QChar) : bool :=
  match c with
  | Some d => Ascii.eqb d x
  | None => false
  end.

Arguments isChar c x%_char.

(** [QString::mid(position)]: everything from [position] on, nothing when
    [position] is beyond the end. *)
Fixpoint mid (s : QString) (position : nat) : QString :=
  match position, s with
  | O, _ => s
  | S p, String _ r => mid r p
  | S _, EmptyString => EmptyString
  end.

(** [QChar::isSpace]: the controls 9..13 and the separators, which in this
    range are the space and the no-break space. *)
Definition isSpace (c : QChar) : bool :=
  let n := nat_of_ascii c in
  (((9 <=? n) && (n <=? 13)) || (n =? 32) || (n =? 160))%nat.

(** [QChar::toLower] on the Latin-1 range. *)
Definition toLowerChar (c : QChar) : QChar :=
  let n := nat_of_ascii c in
  if (((65 <=? n) && (n <=? 90))
      || ((192 <=? n) && (n <=? 222) && negb (n =? 215)))%nat
  then ascii_of_nat (n + 32)
  else c.

(** [QString::toLower]. *)
Fixpoint toLower (s : QString) : QString :=
  match s with
  | EmptyString => EmptyString
  | String c r => String (toLowerChar c) (toLower r)
  end.

(** [QString::simplified]: white space removed at both ends, every inner run
    of white space replaced by one space.  [started] records that a
    character was already copied, [gap] that white space was skipped since. *)
Fixpoint simplifiedFrom (started gap : bool) (s : QString) : QString :=
  match s with
  | EmptyString => EmptyString
  | String c r =>
      if isSpace c then simplifiedFrom started started r
      else if gap then String " " (String c (simplifiedFrom true false r))
      else String c (simplifiedFrom true false r)
  end.

Definition simplified (s : QString) : QString := simplifiedFrom false false s.

(** [QString(fmt).arg(a)] for a format whose only place marker is [%1],
    which is the one use in the file: each [%1] is replaced by [a]. *)
Fixpoint arg (fmt a : QString) : QString :=
  match fmt with
  | EmptyString => EmptyString
  | String "%" (String "1" r) => (a ++ arg r a)%string
  | String c r => String c (arg r a)
  end.

(** ** QVariant

    The value tags that occur as option values, and the invalid variant
    that a lookup of a missing key returns.  Conversions follow the
    conversion table of [QVariant]. *)
Inductive QVariant : Type :=
| Invalid
| Bool (b : bool)
| String_ (s : QString)
| StringList (l : QStringList).

Inductive QVariantType : Type := TInvalid | TBool | TString | TStringList.

Definition type (v : QVariant) : QVariantType :=
  match v with
  | Invalid => TInvalid
  | Bool _ => TBool
  | String_ _ => TString
  | StringList _ => TStringList
  end.

Definition canConvert (v : QVariant) (t : QVariantType) : bool :=
  match v, t with
  | Bool _, TBool | Bool _, TString => true
  | String_ _, TBool | String_ _, TString | String_ _, TStringList => true
  | StringList _, TString | StringList _, TStringList => true
  | _, _ => false
  end.

Definition toBool (v : QVariant) : bool :=
  match v with
  | Bool b => b
  | String_ s =>
      let l := toLower s in
      negb (isEmpty l || String.eqb l "0" || String.eqb l "false")
  | _ => false
  end.

Definition toString (v : QVariant) : QString :=
  match v with
  | String_ s => s
  | Bool true => "true"
  | Bool false => "false"
  | StringList [s] => s
  | _ => EmptyString
  end.

Definition toStringList (v : QVariant) : QStringList :=
  match v with
  | StringList l => l
  | String_ s => [s]
  | _ => []
  end.

(** ** Fatal assertions

    [Q_ASSERT(cond)] aborts the program when [cond] is false (the checking
    form of the macro).  A function that can reach one therefore either
    returns a value or ends in [AssertionFailed]. *)
Inductive outcome (A : Type) : Type :=
| Returned (a : A)
| AssertionFailed.

Arguments Returned {A} a.
Arguments AssertionFailed {A}.

Definition bind {A B : Type} (m : outcome A) (k : A -> outcome B) : outcome B :=
  match m with
  | Returned a => k a
  | AssertionFailed => AssertionFailed
  end.

Definition Q_ASSERT (cond : bool) : outcome unit :=
  if cond then Returned tt else AssertionFailed.

(** [foreach (x, l) body], the body updating the local state [s]. *)
Fixpoint foreach {A S : Type} (l : list A) (body : A -> S -> outcome S) (s : S)
  : outcome S :=
  match l with
  | [] => Returned s
  | x :: r => bind (body x s) (foreach r body)
  end.

(** ** QVariantMap

    [QMap<QString, QVariant>]: at most one value per key, the entries kept
    in key order. *)
Definition QVariantMap := list (QString * QVariant).

(** [QMap::insert]: a new key takes its place in the order, the value of
    an existing key is replaced. *)
Fixpoint insert (key : QString) (v : QVariant) (m : QVariantMap) : QVariantMap :=
  match m with
  | [] => [(key, v)]
  | (k, w) :: r =>
      match String.compare key k with
      | Eq => (key, v) :: r
      | Lt => (key, v) :: m
      | Gt => (k, w) :: insert key v r
      end
  end.

(** [QMap::value(key)]: a default-constructed variant for a missing key. *)
Fixpoint mapValue (m : QVariantMap) (key : QString) : QVariant :=
  match m with
  | [] => Invalid
  | (k, w) :: r => if String.eqb k key then w else mapValue r key
  end.

End Qt.

Declare Scope outcome_scope.
Delimit Scope outcome_scope with outcome.
Notation "x <- m ;; k" := (Qt.bind m (fun x => k))
  (at level 61, m at next level, right associativity) : outcome_scope.
Notation "m ;; k" := (Qt.bind m (fun _ => k))
  (at level 61, right associativity) : outcome_scope.

Local Open Scope outcome_scope.

(* ===================================================================== *)
(** * vcsbase: the option mapping handed to the argument builders         *)
(* ===================================================================== *)

Module VCSBase.
Import Qt.

(** Modelled from the spec: [ExtraCommandOptions], declared in
    vcsbaseclient.h, which is not among the sources.  It is a mapping from
    option id ([int]) to [QVariant] without duplicate keys.  The mapping is
    represented by its entries in the order in which the container
    enumerates them; [keys], [values] and [value] are the three ways the
    code reads it. *)
Definition ExtraCommandOptions := list (Z * QVariant).

(** [extraOptions.keys()]. *)
Definition keys (m : ExtraCommandOptions) : list Z := map fst m.

(** Iteration over the container itself visits the values. *)
Definition values (m : ExtraCommandOptions) : list QVariant := map snd m.

(** [extraOptions[key]] on a constant mapping: the value stored under
    [key], a default-constructed variant when there is none. *)
Fixpoint value (m : ExtraCommandOptions) (key : Z) : QVariant :=
  match m with
  | [] => Invalid
  | (k, v) :: r => if Z.eqb k key then v else value r key
  end.

End VCSBase.

(* ===================================================================== *)
(** * bazaarclient.cpp                                                    *)
(* ===================================================================== *)

Module Bazaar.
Import Qt VCSBase.

(** ** Helpers of the anonymous namespace

    Both receive the address of the caller's local list, so their guard
    against a null pointer never triggers; the list is passed and handed
    back. *)
Definition addBoolArgument (optionValue : QVariant) (optionName : QString)
  (arguments : QStringList) : outcome QStringList :=
  Q_ASSERT (canConvert optionValue TBool) ;;
  if toBool optionValue then Returned (arguments ++ [optionName])
  else Returned arguments.

Definition addRevisionArgument (optionValue : QVariant) (arguments : QStringList)
  : outcome QStringList :=
  Q_ASSERT (canConvert optionValue TString) ;;
  let revision := toString optionValue in
  if negb (isEmpty revision) then Returned (arguments ++ ["-r"; revision])
  else Returned arguments.

(** ** Option ids

    The enumerators named by the [switch] statements.  Their integer values
    are fixed by bazaarclient.h, which is not among the sources: [idValue]
    stands for that numbering wherever the code compares an [int] key with
    an enumerator. *)
Inductive ExtraOptionId : Type :=
| UseExistingDirCloneOptionId
| StackedCloneOptionId
| StandAloneCloneOptionId
| BindCloneOptionId
| SwitchCloneOptionId
| HardLinkCloneOptionId
| NoTreeCloneOptionId
| RevisionCloneOptionId
| AuthorCommitOptionId
| FixesCommitOptionId
| LocalCommitOptionId
| RememberPullOrPushOptionId
| OverwritePullOrPushOptionId
| RevisionPullOrPushOptionId
| LocalPullOptionId
| UseExistingDirPushOptionId
| CreatePrefixPushOptionId.

Section ArgumentBuilders.

Variable idValue : ExtraOptionId -> Z.

(** [case X :] reached by [switch (iOption)]. *)
Definition isCase (iOption : Z) (X : ExtraOptionId) : bool :=
  Z.eqb iOption (idValue X).

Definition cloneArguments (srcLocation dstLocation : QString)
  (extraOptions : ExtraCommandOptions) : outcome QStringList :=
  args <- foreach (keys extraOptions) (fun iOption args =>
      let iOptValue := value extraOptions iOption in
      if isCase iOption UseExistingDirCloneOptionId then
        addBoolArgument iOptValue "--use-existing-dir" args
      else if isCase iOption StackedCloneOptionId then
        addBoolArgument iOptValue "--stacked" args
      else if isCase iOption StandAloneCloneOptionId then
        addBoolArgument iOptValue "--standalone" args
      else if isCase iOption BindCloneOptionId then
        addBoolArgument iOptValue "--bind" args
      else if isCase iOption SwitchCloneOptionId then
        addBoolArgument iOptValue "--switch" args
      else if isCase iOption HardLinkCloneOptionId then
        addBoolArgument iOptValue "--hardlink" args
      else if isCase iOption NoTreeCloneOptionId then
        addBoolArgument iOptValue "--no-tree" args
      else if isCase iOption RevisionCloneOptionId then
        addRevisionArgument iOptValue args
      else
        Q_ASSERT false ;; Returned args) [] ;;
  let args := args ++ [srcLocation] in
  let args := if negb (isEmpty dstLocation) then args ++ [dstLocation] else args in
  Returned args.

Definition commonPullOrPushArguments (extraOptions : ExtraCommandOptions)
  : outcome QStringList :=
  foreach (keys extraOptions) (fun iOption args =>
      let iOptValue := value extraOptions iOption in
      if isCase iOption RememberPullOrPushOptionId then
        addBoolArgument iOptValue "--remember" args
      else if isCase iOption OverwritePullOrPushOptionId then
        addBoolArgument iOptValue "--overwrite" args
      else if isCase iOption RevisionPullOrPushOptionId then
        addRevisionArgument iOptValue args
      else
        Returned args) [].

Definition pullArguments (srcLocation : QString)
  (extraOptions : ExtraCommandOptions) : outcome QStringList :=
  args <- commonPullOrPushArguments extraOptions ;;
  args <- foreach (keys extraOptions) (fun iOption args =>
      let iOptValue := value extraOptions iOption in
      if isCase iOption RememberPullOrPushOptionId then Returned args
      else if isCase iOption OverwritePullOrPushOptionId then Returned args
      else if isCase iOption RevisionPullOrPushOptionId then Returned args
      else if isCase iOption LocalPullOptionId then
        addBoolArgument iOptValue "--local" args
      else
        Q_ASSERT false ;; Returned args) args ;;
  let args := if negb (isEmpty srcLocation) then args ++ [srcLocation] else args in
  Returned args.

Definition pushArguments (dstLocation : QString)
  (extraOptions : ExtraCommandOptions) : outcome QStringList :=
  args <- commonPullOrPushArguments extraOptions ;;
  args <- foreach (keys extraOptions) (fun iOption args =>
      let iOptValue := value extraOptions iOption in
      if isCase iOption RememberPullOrPushOptionId then Returned args
      else if isCase iOption OverwritePullOrPushOptionId then Returned args
      else if isCase iOption RevisionPullOrPushOptionId then Returned args
      else if isCase iOption UseExistingDirPushOptionId then
        addBoolArgument iOptValue "--use-existing-dir" args
      else if isCase iOption CreatePrefixPushOptionId then
        addBoolArgument iOptValue "--create-prefix" args
      else
        Q_ASSERT false ;; Returned args) args ;;
  let args := if negb (isEmpty dstLocation) then args ++ [dstLocation] else args in
  Returned args.

Definition commitArguments (files : QStringList) (commitMessageFile : QString)
  (extraOptions : ExtraCommandOptions) : outcome QStringList :=
  args <- foreach (keys extraOptions) (fun iOption args =>
      let iOptValue := value extraOptions iOption in
      if isCase iOption AuthorCommitOptionId then
        Q_ASSERT (canConvert iOptValue TString) ;;
        let committerInfo := toString iOptValue in
        if negb (isEmpty committerInfo)
        then Returned (args ++ [arg "--author=%1" committerInfo])
        else Returned args
      else if isCase iOption FixesCommitOptionId then
        Q_ASSERT (canConvert iOptValue TStringList) ;;
        foreach (toStringList iOptValue) (fun iFix args =>
            if negb (isEmpty iFix) then Returned (args ++ ["--fixes"; iFix])
            else Returned args) args
      else if isCase iOption LocalCommitOptionId then
        addBoolArgument iOptValue "--local" args
      else
        Q_ASSERT false ;; Returned args) [] ;;
  let args := args ++ ["-F"; commitMessageFile] in
  let args := args ++ files in
  Returned args.

End ArgumentBuilders.

(** [diffArguments] has no fatal assertion: [QTC_ASSERT(false, continue;)]
    reports and runs its action, which moves on to the next value. *)
Definition diffArguments (files : QStringList) (extraOptions : ExtraCommandOptions)
  : QStringList :=
  let args :=
    fold_left (fun args extraOption =>
        match type extraOption with
        | TString => args ++ [toString extraOption]
        | TStringList => args ++ toStringList extraOption
        | _ => args
        end) (values extraOptions) [] in
  if negb (match files with [] => true | _ => false end) then args ++ files
  else args.

Definition logArguments (files : QStringList) (extraOptions : ExtraCommandOptions)
  : QStringList :=
  diffArguments files extraOptions.

(** ** Builders without options *)

Definition importArguments (files : QStringList) : QStringList :=
  let args : QStringList := [] in
  if negb (match files with [] => true | _ => false end) then args ++ files
  else args.

Definition updateArguments (revision : QString) : QStringList :=
  let args : QStringList := [] in
  if negb (isEmpty revision) then args ++ ["-r"; revision] else args.

Definition revertArguments (file revision : QString) : QStringList :=
  let args : QStringList := [] in
  let args := if negb (isEmpty revision) then args ++ ["-r"; revision] else args in
  if negb (isEmpty file) then args ++ [file] else args.

Definition revertAllArguments (revision : QString) : QStringList :=
  let args : QStringList := [] in
  if negb (isEmpty revision) then args ++ ["-r"; revision] else args.

Definition annotateArguments (file revision : QString) (lineNumber : Z)
  : QStringList :=
  let args : QStringList := ["--long"] in
  let args := if negb (isEmpty revision) then args ++ ["-r"; revision] else args in
  args ++ [file].

Definition statusArguments (file : QString) : QStringList :=
  let args : QStringList := [] in
  let args := args ++ ["--short"] in
  if negb (isEmpty file) then args ++ [file] else args.

Definition viewArguments (revision : QString) : QStringList :=
  let args : QStringList := ["log"] in
  args ++ ["-p"; "-v"; "-r"; revision].

(** ** Status lines

    [status] is the pair under construction: both components start out as
    null strings and are assigned as the flags are read. *)
Definition parseStatusLine (line : QString) : QString * QString :=
  let status : QString * QString := (EmptyString, EmptyString) in
  if negb (isEmpty line) then
    let flagVersion := at_ line 0 in
    let status :=
      if isChar flagVersion "+" then ("Versioned", snd status)
      else if isChar flagVersion "-" then ("Unversioned", snd status)
      else if isChar flagVersion "R" then ("Renamed", snd status)
      else if isChar flagVersion "?" then ("Unknown", snd status)
      else if isChar flagVersion "X" then ("Nonexistent", snd status)
      else if isChar flagVersion "C" then ("Conflict", snd status)
      else if isChar flagVersion "P" then ("PendingMerge", snd status)
      else status in
    let lineLength := String.length line in
    let status :=
      if (2 <=? lineLength)%nat then
        let flagContents := at_ line 1 in
        if isChar flagContents "N" then ("Created", snd status)
        else if isChar flagContents "D" then ("Deleted", snd status)
        else if isChar flagContents "K" then ("KindChanged", snd status)
        else if isChar flagContents "M" then ("Modified", snd status)
        else status
      else status in
    let status :=
      if (3 <=? lineLength)%nat then
        let flagExec := at_ line 2 in
        if isChar flagExec "*" then ("ExecuteBitChanged", snd status)
        else status
      else status in
    (fst status, mid line 4)
  else status.

(** ** The branch configuration

    Both regular expressions of [synchronousBranchQuery] have the shape
    [<key>\s*=\s*(.+)$] for a literal <key>.  [indexIn key line] is
    [QRegExp::indexIn] for that expression: the leftmost position at which
    it matches, together with [cap(1)]; [None] stands for -1.  Quantifiers
    are greedy: the white space after [=] goes to [\s*] as long as one
    character is left for the group. *)
Fixpoint stripPrefix (key s : QString) : option QString :=
  match key with
  | EmptyString => Some s
  | String a key' =>
      match s with
      | String b s' => if Ascii.eqb a b then stripPrefix key' s' else None
      | EmptyString => None
      end
  end.

Fixpoint skipSpaces (s : QString) : QString :=
  match s with
  | String c r => if isSpace c then skipSpaces r else s
  | EmptyString => EmptyString
  end.

Fixpoint lastChar (s : QString) : QString :=
  match s with
  | EmptyString => EmptyString
  | String c EmptyString => s
  | String _ r => lastChar r
  end.

(** [\s*(.+)$] on what follows the [=] sign. *)
Definition capture (s : QString) : option QString :=
  if isEmpty s then None
  else
    let rest := skipSpaces s in
    if isEmpty rest then Some (lastChar s) else Some rest.

(** A match that starts at the first character of [s]. *)
Definition matchHere (key s : QString) : option QString :=
  match stripPrefix key s with
  | None => None
  | Some afterKey =>
      match skipSpaces afterKey with
      | String "=" afterEq => capture afterEq
      | _ => None
      end
  end.

Fixpoint indexInFrom (key s : QString) (position : nat) : option (nat * QString) :=
  match matchHere key s with
  | Some cap => Some (position, cap)
  | None =>
      match s with
      | EmptyString => None
      | String _ r => indexInFrom key r (S position)
      end
  end.

Definition indexIn (key line : QString) : option (nat * QString) :=
  indexInFrom key line 0.

Definition branchLocationRx : QString := "bound_location".
Definition isBranchBoundRx : QString := "bound".

(** [BranchInfo], declared in a header that is not among the sources: the
    two values its constructor receives. *)
Record BranchInfo : Type := mkBranchInfo {
  branchLocation : QString;
  isBoundToBranch : bool
}.

(** The [while] loop.  [ts] is what the text stream still holds, line by
    line ([ts.atEnd()] is [ts = []]); the loop hands back the stream together
    with the two strings it assigned. *)
Fixpoint branchConfLoop (ts : list QString) (branchLocation isBranchBound : QString)
  : list QString * QString * QString :=
  match ts with
  | [] => (ts, branchLocation, isBranchBound)
  | line :: rest =>
      if isEmpty branchLocation || isEmpty isBranchBound then
        match indexIn branchLocationRx line with
        | Some (_, cap) => branchConfLoop rest cap isBranchBound
        | None =>
            match indexIn isBranchBoundRx line with
            | Some (_, cap) => branchConfLoop rest branchLocation cap
            | None => branchConfLoop rest branchLocation isBranchBound
            end
        end
      else (ts, branchLocation, isBranchBound)
  end.

Section BranchQuery.

(** [Constants::BAZAARREPO] (constants.h) and [QDir::separator()]. *)
Variable BAZAARREPO : QString.
Variable separator : QChar.

(** The files that [QFile::open(QIODevice::ReadOnly)] can open, by name,
    with their lines; [None] when the open fails. *)
Variable readableFile : QString -> option (list QString).

Definition branchConfFile (repositoryRoot : QString) : QString :=
  (repositoryRoot ++ String separator EmptyString ++ BAZAARREPO
     ++ "/branch/branch.conf")%string.

Definition synchronousBranchQuery (repositoryRoot : QString) : BranchInfo :=
  match readableFile (branchConfFile repositoryRoot) with
  | None => mkBranchInfo EmptyString false
  | Some ts =>
      let '(_, branchLocation, isBranchBound) :=
        branchConfLoop ts EmptyString EmptyString in
      if String.eqb (toLower (simplified isBranchBound)) "true"
      then mkBranchInfo branchLocation true
      else mkBranchInfo repositoryRoot false
  end.

End BranchQuery.

End Bazaar.

(* ===================================================================== *)
(** * makestep.cpp                                                        *)
(* ===================================================================== *)

Module ProjectExplorer.
Import Qt.

(** The collaborators of the step, as far as [effectiveMakeCommand] reads
    them (their classes live in headers outside the sources): an
    environment, a build configuration that carries one, a tool chain that
    names its make command for an environment, and the target with its
    active build configuration and the C++ tool chain of its kit.  Pointers
    that may be null are options. *)
Definition Environment := list (QString * QString).

Record BuildConfiguration : Type := mkBuildConfiguration {
  environment : Environment
}.

Record ToolChain : Type := mkToolChain {
  makeCommand_of : Environment -> QString
}.

Record Target : Type := mkTarget {
  activeBuildConfiguration : option BuildConfiguration;
  kitToolChain : option ToolChain
}.

Record MakeStep : Type := mkMakeStep {
  m_buildTargets : QStringList;
  m_makeArguments : QString;
  m_makeCommand : QString;
  m_clean : bool;
  m_availableTargets : QStringList;
  buildConfiguration : option BuildConfiguration;
  target : Target
}.

(** [QStringList::contains]. *)
Definition contains (l : QStringList) (s : QString) : bool :=
  existsb (String.eqb s) l.

(** [QStringList::removeOne]: the first occurrence goes. *)
Fixpoint removeOne (l : QStringList) (s : QString) : QStringList :=
  match l with
  | [] => []
  | x :: r => if String.eqb x s then r else x :: removeOne r s
  end.

Definition makeCommand (step : MakeStep) : QString := m_makeCommand step.

Definition effectiveMakeCommand (step : MakeStep) : QString :=
  if negb (isEmpty (m_makeCommand step)) then m_makeCommand step
  else
    let bc := buildConfiguration step in
    let bc :=
      match bc with
      | None => activeBuildConfiguration (target step)
      | Some _ => bc
      end in
    let tc := kitToolChain (target step) in
    match bc, tc with
    | Some bc, Some tc => makeCommand_of tc (environment bc)
    | _, _ => EmptyString
    end.

Definition buildsTarget (step : MakeStep) (target : QString) : bool :=
  contains (m_buildTargets step) target.

Definition setBuildTarget (step : MakeStep) (target : QString) (on : bool)
  : MakeStep :=
  let old := m_buildTargets step in
  let old :=
    if on && negb (contains old target) then old ++ [target]
    else if negb on && contains old target then removeOne old target
    else old in
  {| m_buildTargets := old;
     m_makeArguments := m_makeArguments step;
     m_makeCommand := m_makeCommand step;
     m_clean := m_clean step;
     m_availableTargets := m_availableTargets step;
     buildConfiguration := buildConfiguration step;
     target := ProjectExplorer.target step |}.

(** ** Settings

    The four suffixes, and the key built from the id of the step:
    [id().withSuffix(suffix).toString()] is the name of the id followed by
    the suffix ([Core::Id] is outside the sources; the id is taken by its
    name). *)
Definition BUILD_TARGETS_SUFFIX : QString := ".BuildTargets".
Definition MAKE_ARGUMENTS_SUFFIX : QString := ".MakeArguments".
Definition MAKE_COMMAND_SUFFIX : QString := ".MakeCommand".
Definition CLEAN_SUFFIX : QString := ".Clean".

Definition withSuffix (id suffix : QString) : QString := (id ++ suffix)%string.

(** [toMap]; [base] is the map of [AbstractProcessStep::toMap()]. *)
Definition toMap (id : QString) (base : QVariantMap) (step : MakeStep)
  : QVariantMap :=
  let map := base in
  let map := insert (withSuffix id BUILD_TARGETS_SUFFIX)
               (StringList (m_buildTargets step)) map in
  let map := insert (withSuffix id MAKE_ARGUMENTS_SUFFIX)
               (String_ (m_makeArguments step)) map in
  let map := insert (withSuffix id MAKE_COMMAND_SUFFIX)
               (String_ (m_makeCommand step)) map in
  let map := insert (withSuffix id CLEAN_SUFFIX) (Bool (m_clean step)) map in
  map.

(** [fromMap], as far as it assigns the fields of the step; its result is
    that of [BuildStep::fromMap], which is outside the sources. *)
Definition fromMap (id : QString) (map : QVariantMap) (step : MakeStep)
  : MakeStep :=
  {| m_buildTargets :=
       toStringList (mapValue map (withSuffix id BUILD_TARGETS_SUFFIX));
     m_makeArguments :=
       toString (mapValue map (withSuffix id MAKE_ARGUMENTS_SUFFIX));
     m_makeCommand :=
       toString (mapValue map (withSuffix id MAKE_COMMAND_SUFFIX));
     m_clean := toBool (mapValue map (withSuffix id CLEAN_SUFFIX));
     m_availableTargets := m_availableTargets step;
     buildConfiguration := buildConfiguration step;
     target := ProjectExplorer.target step |}.

(** ** The summary of the configuration widget

    The widget as far as [setSummaryText] touches it: the text, and how
    often the signal [updateSummary] was emitted. *)
Record MakeStepConfigWidget : Type := mkMakeStepConfigWidget {
  m_summaryText : QString;
  updateSummary : nat
}.

Definition setSummaryText (widget : MakeStepConfigWidget) (text : QString)
  : MakeStepConfigWidget :=
  if String.eqb text (m_summaryText widget) then widget
  else {| m_summaryText := text; updateSummary := S (updateSummary widget) |}.

Definition summaryText (widget : MakeStepConfigWidget) : QString :=
  m_summaryText widget.

End ProjectExplorer.

(* ===================================================================== *)
(** * Vocabulary of the statements                                        *)
(* ===================================================================== *)

Import Qt VCSBase Bazaar ProjectExplorer.

(** ** Options handed to an argument builder *)

Scheme Equality for ExtraOptionId.

(** A mapping given by its entries, each under the integer value of its
    enumerator, in enumeration order. *)
Definition supplied (idValue : ExtraOptionId -> Z)
  (entries : list (ExtraOptionId * QVariant)) : ExtraCommandOptions :=
  map (fun e => (idValue (fst e), snd e)) entries.

(** One admissible numbering: consecutive values from 0 on. *)
Definition ordinal (id : ExtraOptionId) : Z :=
  match id with
  | UseExistingDirCloneOptionId => 0
  | StackedCloneOptionId => 1
  | StandAloneCloneOptionId => 2
  | BindCloneOptionId => 3
  | SwitchCloneOptionId => 4
  | HardLinkCloneOptionId => 5
  | NoTreeCloneOptionId => 6
  | RevisionCloneOptionId => 7
  | AuthorCommitOptionId => 8
  | FixesCommitOptionId => 9
  | LocalCommitOptionId => 10
  | RememberPullOrPushOptionId => 11
  | OverwritePullOrPushOptionId => 12
  | RevisionPullOrPushOptionId => 13
  | LocalPullOptionId => 14
  | UseExistingDirPushOptionId => 15
  | CreatePrefixPushOptionId => 16
  end%Z.

(** The value tag each option id expects. *)
Definition expectedType (id : ExtraOptionId) : QVariantType :=
  match id with
  | RevisionCloneOptionId | RevisionPullOrPushOptionId => TString
  | AuthorCommitOptionId => TString
  | FixesCommitOptionId => TStringList
  | _ => TBool
  end.

(** The four operations that dispatch on option ids, with their positional
    arguments, and the ids each one has a [case] for. *)
Inductive Operation : Type :=
| Clone (srcLocation dstLocation : QString)
| Pull (srcLocation : QString)
| Push (dstLocation : QString)
| Commit (files : QStringList) (commitMessageFile : QString).

Definition cloneOptionIds : list ExtraOptionId :=
  [UseExistingDirCloneOptionId; StackedCloneOptionId; StandAloneCloneOptionId;
   BindCloneOptionId; SwitchCloneOptionId; HardLinkCloneOptionId;
   NoTreeCloneOptionId; RevisionCloneOptionId].

Definition pullOptionIds : list ExtraOptionId :=
  [RememberPullOrPushOptionId; OverwritePullOrPushOptionId;
   RevisionPullOrPushOptionId; LocalPullOptionId].

Definition pushOptionIds : list ExtraOptionId :=
  [RememberPullOrPushOptionId; OverwritePullOrPushOptionId;
   RevisionPullOrPushOptionId; UseExistingDirPushOptionId;
   CreatePrefixPushOptionId].

Definition commitOptionIds : list ExtraOptionId :=
  [AuthorCommitOptionId; FixesCommitOptionId; LocalCommitOptionId].

Definition optionTable (op : Operation) : list ExtraOptionId :=
  match op with
  | Clone _ _ => cloneOptionIds
  | Pull _ => pullOptionIds
  | Push _ => pushOptionIds
  | Commit _ _ => commitOptionIds
  end.

Definition buildArguments (idValue : ExtraOptionId -> Z) (op : Operation)
  (extraOptions : ExtraCommandOptions) : outcome QStringList :=
  match op with
  | Clone src dst => cloneArguments idValue src dst extraOptions
  | Pull src => pullArguments idValue src extraOptions
  | Push dst => pushArguments idValue dst extraOptions
  | Commit files msg => commitArguments idValue files msg extraOptions
  end.

(** An entry that an operation recognizes and that carries the expected
    tag. *)
Definition wellTagged (table : list ExtraOptionId)
  (e : ExtraOptionId * QVariant) : Prop :=
  In (fst e) table /\ type (snd e) = expectedType (fst e).

(** What one clone option contributes to the argument list. *)
Definition cloneTokens (e : ExtraOptionId * QVariant) : QStringList :=
  match e with
  | (UseExistingDirCloneOptionId, Bool true) => ["--use-existing-dir"]
  | (StackedCloneOptionId, Bool true) => ["--stacked"]
  | (StandAloneCloneOptionId, Bool true) => ["--standalone"]
  | (BindCloneOptionId, Bool true) => ["--bind"]
  | (SwitchCloneOptionId, Bool true) => ["--switch"]
  | (HardLinkCloneOptionId, Bool true) => ["--hardlink"]
  | (NoTreeCloneOptionId, Bool true) => ["--no-tree"]
  | (RevisionCloneOptionId, String_ revision) =>
      if isEmpty revision then [] else ["-r"; revision]
  | _ => []
  end.

(** What one commit option contributes to the argument list. *)
Definition fixesTokens (fixes : QStringList) : QStringList :=
  flat_map (fun ref => if isEmpty ref then [] else ["--fixes"; ref]) fixes.

Definition commitTokens (e : ExtraOptionId * QVariant) : QStringList :=
  match e with
  | (AuthorCommitOptionId, String_ author) =>
      if isEmpty author then [] else [("--author=" ++ author)%string]
  | (FixesCommitOptionId, StringList fixes) => fixesTokens fixes
  | (LocalCommitOptionId, Bool true) => ["--local"]
  | _ => []
  end.

(** What one pre-formatted value contributes to a diff or log. *)
Definition flattened (v : QVariant) : QStringList :=
  match v with
  | String_ s => [s]
  | StringList l => l
  | _ => []
  end.

(** ** Status flags *)

Definition versionFlag (c : QChar) : option QString :=
  match c with
  | "+"%char => Some "Versioned"
  | "-"%char => Some "Unversioned"
  | "R"%char => Some "Renamed"
  | "?"%char => Some "Unknown"
  | "X"%char => Some "Nonexistent"
  | "C"%char => Some "Conflict"
  | "P"%char => Some "PendingMerge"
  | _ => None
  end.

Definition contentFlag (c : QChar) : option QString :=
  match c with
  | "N"%char => Some "Created"
  | "D"%char => Some "Deleted"
  | "K"%char => Some "KindChanged"
  | "M"%char => Some "Modified"
  | _ => None
  end.

(** The flag found at [position], when the line is long enough to have
    one. *)
Definition flagAt (decode : QChar -> option QString) (line : QString)
  (position : nat) : option QString :=
  if (S position <=? String.length line)%nat then
    match String.get position line with
    | Some c => decode c
    | None => None
    end
  else None.

Definition execFlag (c : QChar) : option QString :=
  match c with
  | "*"%char => Some "ExecuteBitChanged"
  | _ => None
  end.

(** The state by priority: exec flag, else content flag, else version flag,
    else none. *)
Definition stateByPriority (line : QString) : QString :=
  match flagAt execFlag line 2, flagAt contentFlag line 1,
        flagAt versionFlag line 0 with
  | Some s, _, _ => s
  | None, Some s, _ => s
  | None, None, Some s => s
  | None, None, None => EmptyString
  end.

(** ** Branch configuration *)

(** What a line assigns: to the location when it matches the
    [bound_location] expression; to the bound flag when it does not and
    matches the [bound] expression. *)
Definition locationOf (line : QString) : option QString :=
  option_map snd (indexIn branchLocationRx line).

Definition boundOf (line : QString) : option QString :=
  match indexIn branchLocationRx line with
  | Some _ => None
  | None => option_map snd (indexIn isBranchBoundRx line)
  end.

(** The capture of the first line on which an expression matches, the null
    string when there is none. *)
Fixpoint firstMatch (rx : QString) (lines : list QString) : QString :=
  match lines with
  | [] => EmptyString
  | line :: rest =>
      match indexIn rx line with
      | Some (_, cap) => cap
      | None => firstMatch rx rest
      end
  end.

(** The scan read as "the first match for each key wins". *)
Definition firstMatchWins (lines : list QString) : Prop :=
  let '(_, branchLocation, isBranchBound) :=
    branchConfLoop lines EmptyString EmptyString in
  branchLocation = firstMatch branchLocationRx lines
  /\ isBranchBound = firstMatch isBranchBoundRx lines.

(** The last assignment made by the lines, [found] when there is none. *)
Definition lastMatchFrom (assigned : QString -> option QString)
  (lines : list QString) (found : QString) : QString :=
  fold_left (fun found line =>
      match assigned line with
      | Some cap => cap
      | None => found
      end) lines found.

Definition lastMatch (assigned : QString -> option QString)
  (lines : list QString) : QString :=
  lastMatchFrom assigned lines EmptyString.

(** Both values have been found in the lines. *)
Definition bothFound (lines : list QString) : bool :=
  negb (isEmpty (lastMatch locationOf lines))
  && negb (isEmpty (lastMatch boundOf lines)).

Fixpoint allSpaces (s : QString) : bool :=
  match s with
  | EmptyString => true
  | String c r => isSpace c && allSpaces r
  end.

(** The token true in any letter case, with white space around it. *)
Definition isTrueToken (s : QString) : Prop :=
  exists (pre post : QString) (t r u e : QChar),
    s = (pre ++ String t (String r (String u (String e post))))%string
    /\ allSpaces pre = true /\ allSpaces post = true
    /\ (t = "t" \/ t = "T")%char /\ (r = "r" \/ r = "R")%char
    /\ (u = "u" \/ u = "U")%char /\ (e = "e" \/ e = "E")%char.

(** ** Make step *)

(** The build configuration the step resolves: its own, else the active one
    of its target. *)
Definition resolvedBuildConfiguration (step : MakeStep)
  : option BuildConfiguration :=
  match buildConfiguration step with
  | Some bc => Some bc
  | None => activeBuildConfiguration (target step)
  end.

(** The targets of a list other than [target], in their order. *)
Definition otherTargets (target : QString) (l : QStringList) : QStringList :=
  filter (fun t => negb (String.eqb t target)) l.

(** ** Pull and push *)

Definition commonOptionIds : list ExtraOptionId :=
  [RememberPullOrPushOptionId; OverwritePullOrPushOptionId;
   RevisionPullOrPushOptionId].

(** What one option contributes through the shared helper, and what it
    contributes in the loop of pull, of push. *)
Definition commonTokens (e : ExtraOptionId * QVariant) : QStringList :=
  match e with
  | (RememberPullOrPushOptionId, Bool true) => ["--remember"]
  | (OverwritePullOrPushOptionId, Bool true) => ["--overwrite"]
  | (RevisionPullOrPushOptionId, String_ revision) =>
      if isEmpty revision then [] else ["-r"; revision]
  | _ => []
  end.

Definition pullTokens (e : ExtraOptionId * QVariant) : QStringList :=
  match e with
  | (LocalPullOptionId, Bool true) => ["--local"]
  | _ => []
  end.

Definition pushTokens (e : ExtraOptionId * QVariant) : QStringList :=
  match e with
  | (UseExistingDirPushOptionId, Bool true) => ["--use-existing-dir"]
  | (CreatePrefixPushOptionId, Bool true) => ["--create-prefix"]
  | _ => []
  end.

(** A location that is passed on only when it is not empty. *)
Definition optional (s : QString) : QStringList :=
  if isEmpty s then [] else [s].

(** ** Status entries and scanned values *)


(** The two strings the scan assigned. *)
Definition scannedValues (r : list QString * QString * QString)
  : QString * QString :=
  (snd (fst r), snd r).

(** The number of lines that assign. *)
Definition assigning (assigned : QString -> option QString)
  (lines : list QString) : nat :=
  List.length (filter (fun line =>
                         match assigned line with
                         | Some _ => true
                         | None => false
                         end) lines).

(** What an expression captures on a line. *)
Definition captured (rx line : QString) : option QString :=
  option_map snd (indexIn rx line).

(* ===================================================================== *)
(** * Properties                                                          *)
(* ===================================================================== *)

(** ** The outcome monad and [foreach] *)

Lemma foreach_app {A S : Type} (l1 l2 : list A) (body : A -> S -> outcome S) (s : S) :
  foreach (l1 ++ l2) body s = (s' <- foreach l1 body s ;; foreach l2 body s').
Proof.
  revert s; induction l1 as [|x l1 IH]; intros s; simpl.
  - reflexivity.
  - destruct (body x s) as [s'|]; simpl; [apply IH | reflexivity].
Qed.

(** One failing element makes the whole loop fail, whatever the state it is
    reached in. *)
Lemma foreach_fails {A S : Type} (l : list A) (body : A -> S -> outcome S) (x : A) :
  In x l -> (forall s, body x s = AssertionFailed) ->
  forall s, foreach l body s = AssertionFailed.
Proof.
  intros Hin Hfail; induction l as [|y l IH]; intros s; simpl.
  - destruct Hin.
  - destruct Hin as [->|Hin].
    + now rewrite Hfail.
    + destruct (body y s) as [s'|]; simpl; [now apply IH | reflexivity].
Qed.

(** A loop whose body always returns, returns. *)
Lemma foreach_returns {A S : Type} (l : list A) (body : A -> S -> outcome S) :
  (forall x, In x l -> forall s, exists s', body x s = Returned s') ->
  forall s, exists s', foreach l body s = Returned s'.
Proof.
  induction l as [|y l IH]; intros Hbody s; simpl.
  - now exists s.
  - destruct (Hbody y (or_introl eq_refl) s) as [s' ->]; simpl.
    apply IH; intros x Hx; apply Hbody; now right.
Qed.

(** The inner loop of the commit builder over the issue references. *)
Lemma foreach_fixes (fixes : QStringList) (args : QStringList) :
  foreach fixes (fun iFix args =>
      if negb (isEmpty iFix) then Returned (args ++ ["--fixes"; iFix])
      else Returned args) args
  = Returned (args ++ fixesTokens fixes).
Proof.
  revert args; induction fixes as [|f fixes IH]; intros args; simpl.
  - now rewrite app_nil_r.
  - destruct (isEmpty f); simpl; rewrite IH; [reflexivity|].
    now rewrite <- app_assoc.
Qed.

Lemma append_empty_r (s : QString) : (s ++ "")%string = s.
Proof. induction s as [|c s IH]; simpl; [reflexivity | now rewrite IH]. Qed.

(** The one format of the file: the place marker is the end of it. *)
Lemma arg_author (committerInfo : QString) :
  arg "--author=%1" committerInfo = ("--author=" ++ committerInfo)%string.
Proof. simpl; now rewrite append_empty_r. Qed.

Lemma ordinal_inj (a b : ExtraOptionId) : ordinal a = ordinal b -> a = b.
Proof. destruct a, b; simpl; intros H; try reflexivity; discriminate H. Qed.

Section ArgumentBuilderProperties.

Variable idValue : ExtraOptionId -> Z.
Hypothesis idValue_inj : forall a b, idValue a = idValue b -> a = b.

Lemma isCase_idValue (a b : ExtraOptionId) :
  isCase idValue (idValue a) b = ExtraOptionId_beq a b.
Proof.
  unfold isCase; destruct (Z.eqb_spec (idValue a) (idValue b)) as [E|N].
  - apply idValue_inj in E; subst b; now destruct a.
  - destruct a, b; try reflexivity; now contradiction N.
Qed.

(** An integer that is no enumerator of the table misses every [case] of
    the table. *)
Lemma isCase_unrecognized (table : list ExtraOptionId) (k : Z) (X : ExtraOptionId) :
  ~ In k (map idValue table) -> In X table -> isCase idValue k X = false.
Proof.
  intros Hk HX; unfold isCase; destruct (Z.eqb_spec k (idValue X)) as [E|N].
  - exfalso; apply Hk; subst k; now apply in_map.
  - reflexivity.
Qed.

(** Looking an entry up under its key finds it, keys being unique. *)
Lemma value_supplied (entries : list (ExtraOptionId * QVariant)) id v :
  NoDup (map fst entries) -> In (id, v) entries ->
  value (supplied idValue entries) (idValue id) = v.
Proof.
  induction entries as [|[id' v'] entries IH]; simpl; intros Hnd Hin.
  - destruct Hin.
  - inversion Hnd as [|? ? Hnotin Hnd']; subst.
    destruct Hin as [E|Hin].
    + inversion E; subst; now rewrite Z.eqb_refl.
    + destruct (Z.eqb_spec (idValue id') (idValue id)) as [E|N].
      * apply idValue_inj in E; subst id'.
        exfalso; apply Hnotin. now apply (in_map fst) in Hin.
      * now apply IH.
Qed.

(** A loop over the keys whose body appends, for every entry, the tokens of
    that entry, appends the tokens of all entries in enumeration order. *)
Lemma foreach_keys_tokens
  (body : Z -> QStringList -> outcome QStringList)
  (tokens : ExtraOptionId * QVariant -> QStringList)
  (entries : list (ExtraOptionId * QVariant)) :
  (forall id v args, In (id, v) entries ->
     body (idValue id) args = Returned (args ++ tokens (id, v))) ->
  forall args,
    foreach (keys (supplied idValue entries)) body args
    = Returned (args ++ flat_map tokens entries).
Proof.
  intros Hbody.
  assert (G : forall es, incl es entries -> forall args,
             foreach (keys (supplied idValue es)) body args
             = Returned (args ++ flat_map tokens es)).
  { induction es as [|[id v] es IH]; intros Hincl args; simpl.
    - now rewrite app_nil_r.
    - rewrite (Hbody id v) by (apply Hincl; now left); simpl.
      unfold keys, supplied in IH; rewrite IH.
      + now rewrite app_assoc.
      + intros e He; apply Hincl; now right. }
  intros args; apply G, incl_refl.
Qed.

(** ** Clone *)

Ltac well_tagged H :=
  let Hid := fresh "Hid" in
  let Hty := fresh "Hty" in
  destruct H as [Hid Hty]; simpl in Hid, Hty;
  repeat (destruct Hid as [Hid|Hid]; [subst|]); try contradiction.

(** C6.  With recognized, correctly tagged clone options, the argument list
    is, in the order in which the options are enumerated, one flag for each
    toggle supplied true (none for one supplied false) and [-r <revision>]
    for a non-empty revision, then the source location, then the
    destination location when it is not empty; the stacked clone of A into
    B at revision 42 gives [--stacked -r 42 A B]. *)
Theorem cloneArguments_tokens :
  (forall (srcLocation dstLocation : QString)
          (entries : list (ExtraOptionId * QVariant)),
      NoDup (map fst entries) ->
      Forall (wellTagged cloneOptionIds) entries ->
      cloneArguments idValue srcLocation dstLocation (supplied idValue entries)
      = Returned (flat_map cloneTokens entries
                    ++ srcLocation
                    :: (if isEmpty dstLocation then [] else [dstLocation])))
  /\ cloneArguments idValue "A" "B"
       (supplied idValue [(StackedCloneOptionId, Bool true);
                          (RevisionCloneOptionId, String_ "42")])
     = Returned ["--stacked"; "-r"; "42"; "A"; "B"].
Proof.
  assert (G : forall srcLocation dstLocation entries,
             NoDup (map fst entries) ->
             Forall (wellTagged cloneOptionIds) entries ->
             cloneArguments idValue srcLocation dstLocation (supplied idValue entries)
             = Returned (flat_map cloneTokens entries
                           ++ srcLocation
                           :: (if isEmpty dstLocation then [] else [dstLocation]))).
  { intros src dst entries Hnd Hwt; unfold cloneArguments.
    rewrite (foreach_keys_tokens _ cloneTokens entries).
    - simpl; destruct (isEmpty dst); simpl; [reflexivity|].
      now rewrite <- app_assoc.
    - intros id v args Hin; cbv zeta.
      rewrite (value_supplied entries id v Hnd Hin), !isCase_idValue.
      rewrite Forall_forall in Hwt; specialize (Hwt _ Hin).
      unfold addBoolArgument, addRevisionArgument.
      well_tagged Hwt; destruct v as [|b|r|l]; try discriminate Hty; simpl;
        try (destruct b; simpl; rewrite ?app_nil_r; reflexivity).
      destruct (isEmpty r); simpl; rewrite ?app_nil_r; reflexivity. }
  split; [exact G|].
  rewrite G.
  - reflexivity.
  - repeat (apply NoDup_cons || apply NoDup_nil); simpl; intuition discriminate.
  - repeat (apply Forall_cons || apply Forall_nil); split; simpl; auto 20.
Qed.

(** ** Commit *)

(** C1.  With an author string, a list of issue references and a local
    toggle as the only options, the commit arguments are, in the order in
    which the options are enumerated, [--author=<value>] for a non-empty
    author, [--fixes <ref>] for every non-empty reference and [--local] for
    a true toggle, then always [-F <commitMessageFile>] and the files.  With
    the three options enumerated author, fixes, local the groups come in
    that order, and the commit of a.txt by Jane that fixes 123 and 456
    gives the list of the example. *)
Theorem commitArguments_tokens :
  (forall (files : QStringList) (commitMessageFile : QString)
          (entries : list (ExtraOptionId * QVariant)),
      NoDup (map fst entries) ->
      Forall (wellTagged commitOptionIds) entries ->
      commitArguments idValue files commitMessageFile (supplied idValue entries)
      = Returned (flat_map commitTokens entries
                    ++ ["-F"; commitMessageFile] ++ files))
  /\ (forall (files : QStringList) (commitMessageFile author : QString)
             (fixes : QStringList) (local : bool),
         commitArguments idValue files commitMessageFile
           (supplied idValue [(AuthorCommitOptionId, String_ author);
                              (FixesCommitOptionId, StringList fixes);
                              (LocalCommitOptionId, Bool local)])
         = Returned ((if isEmpty author then []
                      else [("--author=" ++ author)%string])
                       ++ fixesTokens fixes
                       ++ (if local then ["--local"] else [])
                       ++ ["-F"; commitMessageFile] ++ files))
  /\ commitArguments idValue ["a.txt"] "msg.txt"
       (supplied idValue [(AuthorCommitOptionId, String_ "Jane <j@x.com>");
                          (FixesCommitOptionId, StringList ["123"; "456"])])
     = Returned ["--author=Jane <j@x.com>"; "--fixes"; "123"; "--fixes"; "456";
                 "-F"; "msg.txt"; "a.txt"].
Proof.
  assert (G : forall files commitMessageFile entries,
             NoDup (map fst entries) ->
             Forall (wellTagged commitOptionIds) entries ->
             commitArguments idValue files commitMessageFile
               (supplied idValue entries)
             = Returned (flat_map commitTokens entries
                           ++ ["-F"; commitMessageFile] ++ files)).
  { intros files msg entries Hnd Hwt; unfold commitArguments.
    rewrite (foreach_keys_tokens _ commitTokens entries).
    - simpl; now rewrite <- app_assoc.
    - intros id v args Hin; cbv zeta.
      rewrite (value_supplied entries id v Hnd Hin), !isCase_idValue.
      rewrite Forall_forall in Hwt; specialize (Hwt _ Hin).
      unfold addBoolArgument.
      well_tagged Hwt; destruct v as [|b|a|l]; try discriminate Hty; simpl.
      + rewrite append_empty_r; destruct (isEmpty a); simpl;
          rewrite ?app_nil_r; reflexivity.
      + apply foreach_fixes.
      + destruct b; simpl; rewrite ?app_nil_r; reflexivity. }
  assert (Hnd3 : NoDup [AuthorCommitOptionId; FixesCommitOptionId;
                        LocalCommitOptionId]).
  { repeat (apply NoDup_cons || apply NoDup_nil); simpl; intuition discriminate. }
  split; [exact G|split].
  - intros files msg author fixes local; rewrite G.
    + simpl; rewrite app_nil_r, <- !app_assoc; destruct local; reflexivity.
    + exact Hnd3.
    + repeat (apply Forall_cons || apply Forall_nil); split; simpl; auto.
  - rewrite G.
    + reflexivity.
    + inversion Hnd3 as [|? ? Hn Hnd2]; inversion Hnd2 as [|? ? Hn2 _]; subst.
      repeat (apply NoDup_cons || apply NoDup_nil); simpl in *; intuition.
    + repeat (apply Forall_cons || apply Forall_nil); split; simpl; auto.
Qed.

(** ** Unrecognized option ids *)

Ltac all_cases_missed Hk :=
  cbv zeta;
  rewrite ?(isCase_unrecognized _ _ _ Hk) by (simpl; auto 20);
  reflexivity.

Ltac body_returns Hok :=
  let k := fresh "k" in
  let Hin := fresh "Hin" in
  let args := fresh "args" in
  let id := fresh "id" in
  let Hid := fresh "Hid" in
  let Hty := fresh "Hty" in
  intros k Hin args; cbv zeta;
  destruct (Hok k Hin) as (id & Hid & -> & Hty);
  rewrite !isCase_idValue;
  unfold addBoolArgument, addRevisionArgument;
  simpl in Hid;
  repeat (destruct Hid as [Hid|Hid]; [subst id|]); try contradiction;
  simpl in Hty |- *;
  try match goal with
      | |- context [value ?m ?key] => destruct (value m key) as [|[]|[]|]
      end;
  try discriminate Hty; simpl; eauto using foreach_fixes.

Ltac loop_returns Hok :=
  match goal with
  | |- context [foreach ?l ?f ?s] =>
      let Hr := fresh "Hr" in
      let args := fresh "args" in
      let E := fresh "E" in
      assert (Hr : forall x, In x l -> forall s0, exists s', f x s0 = Returned s')
        by (body_returns Hok);
      destruct (foreach_returns l f Hr s) as [args E];
      rewrite E; clear E Hr; simpl
  end.

(** C8.  For clone, pull, push and commit: an option id for which the
    operation has no [case] ends the builder in the fatal assertion; and
    when every key is an id the operation recognizes, stored with the tag
    that id expects, the builder returns an argument list. *)
Theorem unrecognized_option_asserts :
  forall (op : Operation) (extraOptions : ExtraCommandOptions),
    ((exists k, In k (keys extraOptions)
                /\ ~ In k (map idValue (optionTable op))) ->
     buildArguments idValue op extraOptions = AssertionFailed)
    /\ ((forall k, In k (keys extraOptions) ->
           exists id, In id (optionTable op) /\ k = idValue id
                      /\ type (value extraOptions k) = expectedType id) ->
        exists args, buildArguments idValue op extraOptions = Returned args).
Proof.
  intros op extraOptions; split.
  - intros (k & Hin & Hk).
    destruct op as [src dst|src|dst|files msg]; cbn [optionTable] in Hk; simpl.
    + unfold cloneArguments.
      rewrite (foreach_fails _ _ k Hin); [reflexivity|].
      intros args; all_cases_missed Hk.
    + unfold pullArguments.
      destruct (commonPullOrPushArguments idValue extraOptions) as [args0|];
        [simpl|reflexivity].
      rewrite (foreach_fails _ _ k Hin); [reflexivity|].
      intros args; all_cases_missed Hk.
    + unfold pushArguments.
      destruct (commonPullOrPushArguments idValue extraOptions) as [args0|];
        [simpl|reflexivity].
      rewrite (foreach_fails _ _ k Hin); [reflexivity|].
      intros args; all_cases_missed Hk.
    + unfold commitArguments.
      rewrite (foreach_fails _ _ k Hin); [reflexivity|].
      intros args; all_cases_missed Hk.
  - intros Hok.
    destruct op as [src dst|src|dst|files msg]; simpl in Hok |- *.
    + unfold cloneArguments; loop_returns Hok; eauto.
    + unfold pullArguments, commonPullOrPushArguments.
      loop_returns Hok; loop_returns Hok; eauto.
    + unfold pushArguments, commonPullOrPushArguments.
      loop_returns Hok; loop_returns Hok; eauto.
    + unfold commitArguments; loop_returns Hok; eauto.
Qed.

End ArgumentBuilderProperties.

(** The clone theorem at the consecutive numbering: a hard-linked clone at
    revision 7 with the stacked toggle off and no destination. *)
Lemma cloneArguments_tokens_witness :
  let entries := [(HardLinkCloneOptionId, Bool true);
                  (StackedCloneOptionId, Bool false);
                  (RevisionCloneOptionId, String_ "7")] in
  NoDup (map fst entries)
  /\ Forall (wellTagged cloneOptionIds) entries
  /\ cloneArguments ordinal "lp:project" "" (supplied ordinal entries)
     = Returned ["--hardlink"; "-r"; "7"; "lp:project"].
Proof.
  intros entries.
  assert (Hnd : NoDup (map fst entries)).
  { repeat (apply NoDup_cons || apply NoDup_nil); simpl; intuition discriminate. }
  assert (Hwt : Forall (wellTagged cloneOptionIds) entries).
  { repeat (apply Forall_cons || apply Forall_nil); split; simpl; auto 20. }
  split; [exact Hnd|split; [exact Hwt|]].
  exact (proj1 (cloneArguments_tokens ordinal ordinal_inj)
           "lp:project" "" entries Hnd Hwt).
Defined.

(** The commit theorem at the consecutive numbering: a local commit with an
    empty author and one empty issue reference among two. *)
Lemma commitArguments_tokens_witness :
  let entries := [(LocalCommitOptionId, Bool true);
                  (AuthorCommitOptionId, String_ "");
                  (FixesCommitOptionId, StringList [""; "lp:77"])] in
  NoDup (map fst entries)
  /\ Forall (wellTagged commitOptionIds) entries
  /\ commitArguments ordinal ["a.txt"; "b.txt"] "msg.txt" (supplied ordinal entries)
     = Returned ["--local"; "--fixes"; "lp:77"; "-F"; "msg.txt"; "a.txt"; "b.txt"].
Proof.
  intros entries.
  assert (Hnd : NoDup (map fst entries)).
  { repeat (apply NoDup_cons || apply NoDup_nil); simpl; intuition discriminate. }
  assert (Hwt : Forall (wellTagged commitOptionIds) entries).
  { repeat (apply Forall_cons || apply Forall_nil); split; simpl; auto 20. }
  split; [exact Hnd|split; [exact Hwt|]].
  exact (proj1 (commitArguments_tokens ordinal ordinal_inj)
           ["a.txt"; "b.txt"] "msg.txt" entries Hnd Hwt).
Defined.

(** The assertion theorem at the consecutive numbering: a push option
    handed to pull, and a pull with options of its own table. *)
Lemma unrecognized_option_asserts_witness :
  pullArguments ordinal "lp:project"
    [(11, Bool true); (15, Bool true)]%Z = AssertionFailed
  /\ exists args,
       pullArguments ordinal "lp:project"
         [(11, Bool true); (13, String_ "3"); (14, Bool false)]%Z
       = Returned args.
Proof.
  split.
  - apply (proj1 (unrecognized_option_asserts ordinal ordinal_inj
                    (Pull "lp:project") [(11, Bool true); (15, Bool true)]%Z)).
    exists 15%Z; split; simpl; [auto|intuition discriminate].
  - apply (proj2 (unrecognized_option_asserts ordinal ordinal_inj
                    (Pull "lp:project")
                    [(11, Bool true); (13, String_ "3"); (14, Bool false)]%Z)).
    simpl; intros k [<-|[<-|[<-|[]]]].
    + exists RememberPullOrPushOptionId; simpl; auto.
    + exists RevisionPullOrPushOptionId; simpl; auto.
    + exists LocalPullOptionId; simpl; auto 10.
Defined.

(** ** Diff and log *)

Lemma diff_fold (vs : list QVariant) (args : QStringList) :
  fold_left (fun args extraOption =>
      match type extraOption with
      | TString => args ++ [toString extraOption]
      | TStringList => args ++ toStringList extraOption
      | _ => args
      end) vs args
  = args ++ flat_map flattened vs.
Proof.
  revert args; induction vs as [|v vs IH]; intros args; simpl.
  - now rewrite app_nil_r.
  - rewrite IH; destruct v; simpl; rewrite ?app_nil_r, <- ?app_assoc; reflexivity.
Qed.

(** C9.  The log arguments are the diff arguments: the values of the
    mapping in enumeration order, a string contributing itself and a string
    list its elements, followed by the files. *)
Theorem logArguments_diffArguments :
  forall (files : QStringList) (extraOptions : ExtraCommandOptions),
    logArguments files extraOptions = diffArguments files extraOptions
    /\ diffArguments files extraOptions
       = flat_map flattened (values extraOptions) ++ files.
Proof.
  intros files extraOptions; split; [reflexivity|].
  unfold diffArguments; rewrite diff_fold; simpl.
  destruct files; simpl; [now rewrite app_nil_r | reflexivity].
Qed.

(** ** Status lines *)

Lemma versionFlag_cascade (c : QChar) (state path : QString) :
  (if isChar (Some c) "+" then ("Versioned", path)
   else if isChar (Some c) "-" then ("Unversioned", path)
   else if isChar (Some c) "R" then ("Renamed", path)
   else if isChar (Some c) "?" then ("Unknown", path)
   else if isChar (Some c) "X" then ("Nonexistent", path)
   else if isChar (Some c) "C" then ("Conflict", path)
   else if isChar (Some c) "P" then ("PendingMerge", path)
   else (state, path))
  = (match versionFlag c with Some s => s | None => state end, path).
Proof. destruct c as [[] [] [] [] [] [] [] []]; reflexivity. Qed.

Lemma contentFlag_cascade (c : QChar) (state path : QString) :
  (if isChar (Some c) "N" then ("Created", path)
   else if isChar (Some c) "D" then ("Deleted", path)
   else if isChar (Some c) "K" then ("KindChanged", path)
   else if isChar (Some c) "M" then ("Modified", path)
   else (state, path))
  = (match contentFlag c with Some s => s | None => state end, path).
Proof. destruct c as [[] [] [] [] [] [] [] []]; reflexivity. Qed.

Lemma execFlag_cascade (c : QChar) (state path : QString) :
  (if isChar (Some c) "*" then ("ExecuteBitChanged", path) else (state, path))
  = (match execFlag c with Some s => s | None => state end, path).
Proof. destruct c as [[] [] [] [] [] [] [] []]; reflexivity. Qed.

(** C2.  On a non-empty line the state is decoded by priority: the
    character at 0 as version flag; the character at 1, when the line has
    two characters, as content flag that replaces it; a star at 2, when the
    line has three characters, replacing both.  ["+N  file.txt"] is
    Created, with path file.txt. *)
Theorem parseStatusLine_state :
  (forall line : QString,
      line <> EmptyString ->
      fst (parseStatusLine line) = stateByPriority line)
  /\ parseStatusLine "+N  file.txt" = ("Created", "file.txt").
Proof.
  split; [|reflexivity].
  intros line Hne; unfold parseStatusLine, stateByPriority, flagAt, at_.
  destruct line as [|c0 [|c1 [|c2 rest]]]; [now contradiction Hne| | |];
    cbn [isEmpty negb String.length Nat.leb String.get fst snd mid];
    rewrite versionFlag_cascade; cbn [fst snd];
    rewrite ?contentFlag_cascade; cbn [fst snd];
    rewrite ?execFlag_cascade; cbn [fst snd].
  - destruct (versionFlag c0); reflexivity.
  - destruct (versionFlag c0), (contentFlag c1); reflexivity.
  - destruct (versionFlag c0), (contentFlag c1), (execFlag c2); reflexivity.
Qed.

Lemma parseStatusLine_state_witness :
  "+N  file.txt" <> EmptyString
  /\ fst (parseStatusLine "+N  file.txt") = stateByPriority "+N  file.txt".
Proof.
  split; [discriminate|].
  apply (proj1 parseStatusLine_state); discriminate.
Defined.

Lemma substring_all (s : QString) : substring 0 (String.length s) s = s.
Proof. induction s as [|c s IH]; simpl; [reflexivity | now rewrite IH]. Qed.

(** [mid] is the substring from [position] to the end. *)
Lemma mid_substring (s : QString) (position : nat) :
  mid s position = substring position (String.length s - position) s.
Proof.
  revert s; induction position as [|p IH]; intros s.
  - rewrite Nat.sub_0_r, substring_all; now destruct s.
  - destruct s as [|c r]; simpl; [reflexivity | apply IH].
Qed.

(** C3, as stated, fails on its own example: the line has four spaces
    after the question mark, so the character at index 4 is a space and the
    path keeps it. *)
Lemma parseStatusLine_unknown_path :
  parseStatusLine "?    unknown.txt" <> ("Unknown", "unknown.txt").
Proof. discriminate. Qed.

(** C3, amended.  On a non-empty line the path is the substring from index
    4 to the end, whatever the flags; ["?    unknown.txt"] is Unknown with
    path [" unknown.txt"], the space at index 4 included; the empty line
    gives the empty pair. *)
Theorem parseStatusLine_path :
  (forall line : QString,
      line <> EmptyString ->
      snd (parseStatusLine line)
      = substring 4 (String.length line - 4) line)
  /\ parseStatusLine "?    unknown.txt" = ("Unknown", " unknown.txt")
  /\ parseStatusLine EmptyString = (EmptyString, EmptyString).
Proof.
  split; [|split; reflexivity].
  intros line Hne; rewrite <- mid_substring.
  destruct line; [now contradiction Hne | reflexivity].
Qed.

Lemma parseStatusLine_path_witness :
  "RM  renamed => name" <> EmptyString
  /\ snd (parseStatusLine "RM  renamed => name") = "renamed => name".
Proof.
  split; [discriminate|].
  apply (proj1 parseStatusLine_path "RM  renamed => name"); discriminate.
Defined.

(** ** The branch configuration scan *)

(** One round of the loop body, as assignments. *)
Lemma branchConfLoop_step (line : QString) (rest : list QString)
  (branchLocation isBranchBound : QString) :
  isEmpty branchLocation || isEmpty isBranchBound = true ->
  branchConfLoop (line :: rest) branchLocation isBranchBound
  = branchConfLoop rest
      (lastMatchFrom locationOf [line] branchLocation)
      (lastMatchFrom boundOf [line] isBranchBound).
Proof.
  intros Hcond; simpl; rewrite Hcond.
  unfold locationOf, boundOf.
  destruct (indexIn branchLocationRx line) as [[? cap]|]; simpl; [reflexivity|].
  destruct (indexIn isBranchBoundRx line) as [[? cap]|]; reflexivity.
Qed.

(** The loop from any pair of values: it reads a prefix of the stream,
    the shortest one after which both values are non-empty or else the
    whole of it, and each value is the last assignment of that prefix. *)
Lemma branchConfLoop_from (ts : list QString) :
  forall branchLocation isBranchBound : QString,
  exists n : nat,
    n <= List.length ts
    /\ branchConfLoop ts branchLocation isBranchBound
       = (skipn n ts,
          lastMatchFrom locationOf (firstn n ts) branchLocation,
          lastMatchFrom boundOf (firstn n ts) isBranchBound)
    /\ (n < List.length ts ->
        isEmpty (lastMatchFrom locationOf (firstn n ts) branchLocation)
        || isEmpty (lastMatchFrom boundOf (firstn n ts) isBranchBound) = false)
    /\ (forall m, m < n ->
        isEmpty (lastMatchFrom locationOf (firstn m ts) branchLocation)
        || isEmpty (lastMatchFrom boundOf (firstn m ts) isBranchBound) = true).
Proof.
  induction ts as [|line rest IH]; intros loc bound.
  - exists 0; simpl; repeat split; [lia | lia | intros m Hm; lia].
  - destruct (isEmpty loc || isEmpty bound) eqn:Hcond.
    + destruct (IH (lastMatchFrom locationOf [line] loc)
                   (lastMatchFrom boundOf [line] bound))
        as (n & Hle & Hloop & Hstop & Hmin).
      exists (S n); rewrite branchConfLoop_step by exact Hcond.
      repeat split.
      * simpl; lia.
      * exact Hloop.
      * intros Hlt; apply Hstop; simpl in Hlt; lia.
      * intros [|m] Hm; [exact Hcond | apply Hmin; lia].
    + exists 0; simpl; rewrite Hcond; repeat split.
      * lia.
      * intros m Hm; lia.
Qed.

Lemma bothFound_spec (lines : list QString) :
  bothFound lines
  = negb (isEmpty (lastMatchFrom locationOf lines EmptyString)
          || isEmpty (lastMatchFrom boundOf lines EmptyString)).
Proof. unfold bothFound, lastMatch; now rewrite negb_orb. Qed.

(** C4, as stated, fails: a second [bound] line met while the location is
    still missing replaces the value of the first one. *)
Lemma firstMatchWins_fails :
  ~ firstMatchWins ["bound = False"; "bound = True";
                    "bound_location = /remote/path"].
Proof. vm_compute; intros [_ H]; discriminate H. Qed.

(** C4, amended.  The scan reads the lines in order and stops at the first
    point where both values are non-empty, or at the end of the file; each
    value is the capture of the last line, among the lines read, that
    assigned it, so that a repeated key replaces the earlier value as long
    as the scan goes on; the lines after the stop are left unread. *)
Theorem branchConfLoop_last_match :
  forall lines : list QString,
  exists n : nat,
    n <= List.length lines
    /\ branchConfLoop lines EmptyString EmptyString
       = (skipn n lines,
          lastMatch locationOf (firstn n lines),
          lastMatch boundOf (firstn n lines))
    /\ (n < List.length lines -> bothFound (firstn n lines) = true)
    /\ (forall m, m < n -> bothFound (firstn m lines) = false).
Proof.
  intros lines.
  destruct (branchConfLoop_from lines EmptyString EmptyString)
    as (n & Hle & Hloop & Hstop & Hmin).
  exists n; repeat split.
  - exact Hle.
  - exact Hloop.
  - intros Hlt; rewrite bothFound_spec, (Hstop Hlt); reflexivity.
  - intros m Hm; rewrite bothFound_spec, (Hmin m Hm); reflexivity.
Qed.

(** The scan on a file that repeats [bound] before the location and once
    more after it: three lines are read, the second [bound] line gives the
    value, the fourth line stays in the stream. *)
Lemma branchConfLoop_last_match_witness :
  let lines := ["bound = False"; "bound = True";
                "bound_location = /remote/path"; "bound = False"] in
  (exists n : nat,
      n <= List.length lines
      /\ branchConfLoop lines EmptyString EmptyString
         = (skipn n lines,
            lastMatch locationOf (firstn n lines),
            lastMatch boundOf (firstn n lines))
      /\ (n < List.length lines -> bothFound (firstn n lines) = true)
      /\ (forall m, m < n -> bothFound (firstn m lines) = false))
  /\ branchConfLoop lines EmptyString EmptyString
     = (["bound = False"], "/remote/path", "True").
Proof.
  intros lines; split; [exact (branchConfLoop_last_match lines) | reflexivity].
Defined.

(** ** The bound test *)

Lemma simplifiedFrom_leading (pre s : QString) :
  allSpaces pre = true ->
  simplifiedFrom false false (pre ++ s)%string = simplifiedFrom false false s.
Proof.
  induction pre as [|c pre IH]; simpl; intros H; [reflexivity|].
  apply andb_prop in H as [Hc Hpre]; rewrite Hc; now apply IH.
Qed.

Lemma simplifiedFrom_trailing (gap : bool) (post : QString) :
  allSpaces post = true -> simplifiedFrom true gap post = EmptyString.
Proof.
  revert gap; induction post as [|c post IH]; simpl; intros gap H; [reflexivity|].
  apply andb_prop in H as [Hc Hpost]; rewrite Hc; now apply IH.
Qed.

(** After skipped white space the output is over, or goes on with one
    space. *)
Lemma simplifiedFrom_gap (s : QString) :
  (simplifiedFrom true true s = EmptyString /\ allSpaces s = true)
  \/ exists r, simplifiedFrom true true s = String " " r.
Proof.
  induction s as [|c s IH]; simpl.
  - now left.
  - destruct (isSpace c); simpl; [exact IH | right; eauto].
Qed.

Lemma simplifiedFrom_empty (s : QString) :
  simplifiedFrom true false s = EmptyString -> allSpaces s = true.
Proof.
  destruct s as [|c s]; simpl; [reflexivity|].
  destruct (isSpace c); simpl; [|discriminate].
  destruct (simplifiedFrom_gap s) as [[_ H]|[r ->]]; [now intros _ | discriminate].
Qed.

(** The white space a string starts with, and what follows it. *)
Lemma leading_spaces (s : QString) :
  exists pre rest : QString,
    s = (pre ++ rest)%string /\ allSpaces pre = true
    /\ (rest = EmptyString
        \/ exists c r, rest = String c r /\ isSpace c = false).
Proof.
  induction s as [|c s (pre & rest & -> & Hpre & Hrest)].
  - exists EmptyString, EmptyString; auto.
  - destruct (isSpace c) eqn:Hc.
    + exists (String c pre), rest; simpl; rewrite Hc; auto.
    + exists EmptyString, (String c (pre ++ rest)); simpl; repeat split.
      right; eauto.
Qed.

Lemma toLower_empty (s : QString) : toLower s = EmptyString -> s = EmptyString.
Proof. destruct s; [reflexivity | discriminate]. Qed.

(** The next character of the output, when it is no space, is the next
    character of the input. *)
Lemma toLower_simplified_next (s rest : QString) (x : QChar) :
  toLower (simplifiedFrom true false s) = String x rest ->
  x <> " "%char ->
  exists c r,
    s = String c r /\ toLowerChar c = x
    /\ toLower (simplifiedFrom true false r) = rest.
Proof.
  destruct s as [|c r]; simpl; [discriminate|].
  destruct (isSpace c); simpl.
  - destruct (simplifiedFrom_gap r) as [[-> _]|[r' ->]]; simpl; [discriminate|].
    intros H Hx; injection H as H _; now contradiction Hx.
  - intros H _; injection H as H1 H2; eauto.
Qed.

Lemma toLowerChar_letter (c x : QChar) :
  In x ["t"; "r"; "u"; "e"]%char ->
  toLowerChar c = x ->
  c = x \/ nat_of_ascii c + 32 = nat_of_ascii x.
Proof.
  intros Hx <-; revert Hx.
  destruct c as [[] [] [] [] [] [] [] []]; vm_compute;
    intuition (try discriminate; auto).
Qed.

Lemma bound_test_complete (s : QString) :
  isTrueToken s -> String.eqb (toLower (simplified s)) "true" = true.
Proof.
  intros (pre & post & t & r & u & e & -> & Hpre & Hpost & Ht & Hr & Hu & He).
  unfold simplified; rewrite simplifiedFrom_leading by exact Hpre.
  destruct Ht, Hr, Hu, He; subst; simpl;
    rewrite (simplifiedFrom_trailing _ _ Hpost); reflexivity.
Qed.

Lemma bound_test_sound (s : QString) :
  String.eqb (toLower (simplified s)) "true" = true -> isTrueToken s.
Proof.
  rewrite String.eqb_eq; unfold simplified.
  destruct (leading_spaces s) as (pre & rest & -> & Hpre & Hrest).
  rewrite simplifiedFrom_leading by exact Hpre.
  destruct Hrest as [->|(t & s1 & -> & Ht)]; simpl; [discriminate|].
  rewrite Ht; simpl; intros H; injection H as Et H.
  apply toLower_simplified_next in H as (r & s2 & -> & Er & H); [|discriminate].
  apply toLower_simplified_next in H as (u & s3 & -> & Eu & H); [|discriminate].
  apply toLower_simplified_next in H as (e & post & -> & Ee & H); [|discriminate].
  apply toLower_empty, simplifiedFrom_empty in H.
  exists pre, post, t, r, u, e; repeat split; try assumption.
  - apply toLowerChar_letter in Et as [->|Et]; [now left | right | simpl; auto].
    destruct t as [[] [] [] [] [] [] [] []]; try discriminate Et; reflexivity.
  - apply toLowerChar_letter in Er as [->|Er]; [now left | right | simpl; auto].
    destruct r as [[] [] [] [] [] [] [] []]; try discriminate Er; reflexivity.
  - apply toLowerChar_letter in Eu as [->|Eu]; [now left | right | simpl; auto].
    destruct u as [[] [] [] [] [] [] [] []]; try discriminate Eu; reflexivity.
  - apply toLowerChar_letter in Ee as [->|Ee]; [now left | right | simpl; auto 10].
    destruct e as [[] [] [] [] [] [] [] []]; try discriminate Ee; reflexivity.
Qed.

Lemma isTrueToken_empty : ~ isTrueToken EmptyString.
Proof.
  intros (pre & post & t & r & u & e & H & _); destruct pre; discriminate H.
Qed.

(** Without a line for it, the bound flag keeps its value. *)
Lemma branchConfLoop_unbound (ts : list QString) :
  (forall line, In line ts -> indexIn isBranchBoundRx line = None) ->
  forall branchLocation isBranchBound,
    snd (branchConfLoop ts branchLocation isBranchBound) = isBranchBound.
Proof.
  induction ts as [|line rest IH]; intros Hnone loc bound; simpl; [reflexivity|].
  destruct (isEmpty loc || isEmpty bound); [|reflexivity].
  rewrite (Hnone line (or_introl eq_refl)).
  destruct (indexIn branchLocationRx line) as [[? cap]|];
    apply IH; intros l Hl; apply Hnone; now right.
Qed.

Section BranchQueryProperties.

Variable BAZAARREPO : QString.
Variable separator : QChar.
Variable readableFile : QString -> option (list QString).

Local Abbreviation branchQuery :=
  (synchronousBranchQuery BAZAARREPO separator readableFile).
Local Abbreviation confFile := (branchConfFile BAZAARREPO separator).

(** C5.  When the configuration file cannot be opened the result is the
    empty location, unbound.  Otherwise, with the two values the scan
    leaves: a bound value that is the token true in any letter case, white
    space around it aside, gives the scanned location, bound; any other
    bound value gives the repository root, unbound, and so does a file
    without any line for [bound]. *)
Theorem synchronousBranchQuery_result :
  forall repositoryRoot : QString,
    (readableFile (confFile repositoryRoot) = None ->
     branchQuery repositoryRoot = mkBranchInfo EmptyString false)
    /\ (forall ts : list QString,
          readableFile (confFile repositoryRoot) = Some ts ->
          let scanned := branchConfLoop ts EmptyString EmptyString in
          (isTrueToken (snd scanned) ->
           branchQuery repositoryRoot = mkBranchInfo (snd (fst scanned)) true)
          /\ (~ isTrueToken (snd scanned) ->
              branchQuery repositoryRoot = mkBranchInfo repositoryRoot false)
          /\ ((forall line, In line ts ->
                 indexIn isBranchBoundRx line = None) ->
              branchQuery repositoryRoot = mkBranchInfo repositoryRoot false)).
Proof.
  intros root; unfold synchronousBranchQuery; split.
  - now intros ->.
  - intros ts ->; cbv zeta.
    assert (Hno : ~ isTrueToken (snd (branchConfLoop ts EmptyString EmptyString)) ->
                  (let '(_, branchLocation, isBranchBound) :=
                     branchConfLoop ts EmptyString EmptyString in
                   if String.eqb (toLower (simplified isBranchBound)) "true"
                   then mkBranchInfo branchLocation true
                   else mkBranchInfo root false)
                  = mkBranchInfo root false).
    { destruct (branchConfLoop ts EmptyString EmptyString) as [[rest loc] bound];
        simpl; intros Hno.
      destruct (String.eqb (toLower (simplified bound)) "true") eqn:E;
        [|reflexivity].
      now apply bound_test_sound in E. }
    split; [|split].
    + destruct (branchConfLoop ts EmptyString EmptyString) as [[rest loc] bound];
        simpl; intros Hyes.
      now rewrite (bound_test_complete _ Hyes).
    + exact Hno.
    + intros Hnone; apply Hno.
      rewrite (branchConfLoop_unbound ts Hnone); exact isTrueToken_empty.
Qed.

End BranchQueryProperties.

(** A file system with one branch configuration, bound to a remote. *)
Lemma synchronousBranchQuery_result_witness :
  let files := fun name : QString =>
    if String.eqb name "/work/trunk/.bzr/branch/branch.conf"
    then Some ["parent_location = /remote/parent"; "bound = True";
               "bound_location = /remote/path"]
    else if String.eqb name "/work/plain/.bzr/branch/branch.conf"
    then Some ["parent_location = /remote/parent"]
    else None in
  synchronousBranchQuery ".bzr" "/"%char files "/work/none"
  = mkBranchInfo EmptyString false
  /\ synchronousBranchQuery ".bzr" "/"%char files "/work/trunk"
     = mkBranchInfo "/remote/path" true
  /\ synchronousBranchQuery ".bzr" "/"%char files "/work/plain"
     = mkBranchInfo "/work/plain" false.
Proof.
  intros files; split; [|split].
  - now apply (proj1 (synchronousBranchQuery_result ".bzr" "/"%char files "/work/none")).
  - refine (proj1 (proj2 (synchronousBranchQuery_result ".bzr" "/"%char files
                            "/work/trunk") _ eq_refl) _).
    exists EmptyString, EmptyString, "T"%char, "r"%char, "u"%char, "e"%char.
    simpl; intuition.
  - refine (proj2 (proj2 (proj2 (synchronousBranchQuery_result ".bzr" "/"%char files
                                   "/work/plain") _ eq_refl)) _).
    intros line [<-|[]]; reflexivity.
Defined.

(** ** The make step *)

(** C7.  A non-empty override is the effective command, whatever the build
    configuration and the tool chain are; with an empty override the
    effective command is the make command the tool chain names for the
    environment of the resolved build configuration, when both exist, and
    the empty string when one of them is missing. *)
Theorem effectiveMakeCommand_cases :
  forall step : MakeStep,
    (isEmpty (m_makeCommand step) = false ->
     effectiveMakeCommand step = m_makeCommand step)
    /\ (isEmpty (m_makeCommand step) = true ->
        forall (bc : BuildConfiguration) (tc : ToolChain),
          resolvedBuildConfiguration step = Some bc ->
          kitToolChain (target step) = Some tc ->
          effectiveMakeCommand step = makeCommand_of tc (environment bc))
    /\ (isEmpty (m_makeCommand step) = true ->
        resolvedBuildConfiguration step = None
        \/ kitToolChain (target step) = None ->
        effectiveMakeCommand step = EmptyString).
Proof.
  intros step; unfold effectiveMakeCommand, resolvedBuildConfiguration.
  repeat split.
  - now intros ->.
  - intros -> bc tc Hbc Htc; simpl; rewrite Htc.
    destruct (buildConfiguration step) as [bc'|].
    + now injection Hbc as ->.
    + now rewrite Hbc.
  - intros -> [Hbc|Htc]; simpl.
    + destruct (buildConfiguration step); [discriminate Hbc|].
      now rewrite Hbc.
    + rewrite Htc.
      now destruct (buildConfiguration step),
                   (activeBuildConfiguration (target step)).
Qed.

(** Three steps: one with an override and nothing to resolve, one that
    falls back on the active build configuration of its target, one without
    a tool chain. *)
Lemma effectiveMakeCommand_cases_witness :
  let gcc := mkToolChain (fun env =>
               match env with
               | [] => "make"
               | (_, dir) :: _ => (dir ++ "/make")%string
               end) in
  let bc := mkBuildConfiguration [("MAKEDIR", "/opt/bin")] in
  let step command ownBc target :=
    mkMakeStep ["all"] "-j4" command false ["all"; "clean"] ownBc target in
  effectiveMakeCommand (step "gmake" None (mkTarget None None)) = "gmake"
  /\ effectiveMakeCommand (step "" None (mkTarget (Some bc) (Some gcc)))
     = "/opt/bin/make"
  /\ effectiveMakeCommand (step "" (Some bc) (mkTarget None None)) = "".
Proof.
  intros gcc bc step; split; [|split].
  - now apply (proj1 (effectiveMakeCommand_cases
                        (step "gmake" None (mkTarget None None)))).
  - now apply (proj1 (proj2 (effectiveMakeCommand_cases
                        (step "" None (mkTarget (Some bc) (Some gcc))))) eq_refl
                 bc gcc).
  - apply (proj2 (proj2 (effectiveMakeCommand_cases
                        (step "" (Some bc) (mkTarget None None)))) eq_refl).
    now right.
Defined.

Lemma contains_In (l : QStringList) (s : QString) :
  contains l s = true <-> In s l.
Proof.
  unfold contains; rewrite existsb_exists; split.
  - intros (x & Hin & E); apply String.eqb_eq in E; now subst.
  - intros Hin; exists s; split; [exact Hin | apply String.eqb_refl].
Qed.

Lemma contains_false (l : QStringList) (s : QString) :
  contains l s = false <-> ~ In s l.
Proof.
  rewrite <- contains_In; destruct (contains l s); intuition congruence.
Qed.

(** In a list without duplicates, removing the first occurrence removes
    the element. *)
Lemma removeOne_NoDup (l : QStringList) (s : QString) :
  NoDup l -> removeOne l s = otherTargets s l.
Proof.
  unfold otherTargets; induction l as [|x l IH]; simpl; intros Hnd; [reflexivity|].
  inversion Hnd as [|? ? Hnotin Hnd']; subst.
  destruct (String.eqb_spec x s) as [->|Hne]; simpl.
  - symmetry; apply forallb_filter_id, forallb_forall; intros y Hy.
    destruct (String.eqb_spec y s) as [->|]; [contradiction | reflexivity].
  - now rewrite IH.
Qed.

Lemma otherTargets_absent (l : QStringList) (s : QString) :
  ~ In s l -> otherTargets s l = l.
Proof.
  intros Hnotin; apply forallb_filter_id, forallb_forall; intros y Hy.
  destruct (String.eqb_spec y s) as [->|]; [contradiction | reflexivity].
Qed.

Lemma otherTargets_In (l : QStringList) (s t : QString) :
  In t (otherTargets s l) <-> In t l /\ t <> s.
Proof.
  unfold otherTargets; rewrite filter_In, negb_true_iff.
  destruct (String.eqb_spec t s); intuition congruence.
Qed.

Lemma otherTargets_NoDup (l : QStringList) (s : QString) :
  NoDup l -> NoDup (otherTargets s l).
Proof. apply NoDup_filter. Qed.

(** C10.  On a list of build targets without duplicates, [setBuildTarget]
    leaves a list without duplicates that holds the target exactly when
    [on] is true: the target appended when it was missing, taken out when
    it was present, the list untouched when it already agreed; the other
    targets stay as they were, in their order; [buildsTarget] then answers
    [on]. *)
Theorem setBuildTarget_buildsTarget :
  forall (step : MakeStep) (target : QString) (on : bool),
    NoDup (m_buildTargets step) ->
    let old := m_buildTargets step in
    let new := m_buildTargets (setBuildTarget step target on) in
    NoDup new
    /\ (In target new <-> on = true)
    /\ buildsTarget (setBuildTarget step target on) target = on
    /\ otherTargets target new = otherTargets target old
    /\ (on = true -> ~ In target old -> new = old ++ [target])
    /\ (on = false -> In target old -> new = otherTargets target old)
    /\ ((In target old <-> on = true) -> new = old).
Proof.
  intros step target on Hnd old new.
  assert (Hnew : new = if on then (if contains old target then old
                                   else old ++ [target])
                       else otherTargets target old).
  { subst new old; simpl; destruct on; simpl.
    - now destruct (contains (m_buildTargets step) target).
    - destruct (contains (m_buildTargets step) target) eqn:E.
      + now apply removeOne_NoDup.
      + symmetry; now apply otherTargets_absent, contains_false. }
  assert (Hin : In target new <-> on = true).
  { rewrite Hnew; destruct on.
    - destruct (contains old target) eqn:E.
      + apply contains_In in E; tauto.
      + rewrite in_app_iff; simpl; tauto.
    - rewrite otherTargets_In; intuition congruence. }
  assert (Hothers : otherTargets target new = otherTargets target old).
  { rewrite Hnew; destruct on.
    - destruct (contains old target); [reflexivity|].
      unfold otherTargets; rewrite filter_app; simpl.
      now rewrite String.eqb_refl, app_nil_r.
    - apply otherTargets_absent; rewrite otherTargets_In; tauto. }
  repeat split.
  - rewrite Hnew; destruct on; [|now apply otherTargets_NoDup].
    destruct (contains old target) eqn:E; [exact Hnd|].
    apply contains_false in E.
    apply NoDup_app; [exact Hnd | repeat constructor; intros [] |].
    intros x Hx [<-|[]]; now apply E.
  - apply Hin.
  - apply Hin.
  - unfold buildsTarget; fold new.
    destruct on; [now apply contains_In, Hin|].
    apply contains_false; intros H; apply Hin in H; discriminate H.
  - exact Hothers.
  - intros -> Hnotin; rewrite Hnew.
    now apply contains_false in Hnotin as ->.
  - intros -> _; exact Hnew.
  - intros Hagree; rewrite Hnew; destruct on.
    + now rewrite (proj2 (contains_In old target) (proj2 Hagree eq_refl)).
    + apply otherTargets_absent; intros H; apply Hagree in H; discriminate H.
Qed.

(** A step that builds [all] and [docs]: switching [tests] on, [all] off,
    and [docs] on again. *)
Lemma setBuildTarget_buildsTarget_witness :
  let step := mkMakeStep ["all"; "docs"] "-j4" "" false
                ["all"; "docs"; "tests"] None (mkTarget None None) in
  NoDup (m_buildTargets step)
  /\ m_buildTargets (setBuildTarget step "tests" true) = ["all"; "docs"; "tests"]
  /\ m_buildTargets (setBuildTarget step "all" false) = ["docs"]
  /\ m_buildTargets (setBuildTarget step "docs" true) = ["all"; "docs"]
  /\ buildsTarget (setBuildTarget step "all" false) "all" = false.
Proof.
  intros step.
  assert (Hnd : NoDup (m_buildTargets step)).
  { repeat (apply NoDup_cons || apply NoDup_nil); simpl; intuition discriminate. }
  split; [exact Hnd|]; split; [|split; [|split]].
  - apply (setBuildTarget_buildsTarget step "tests" true Hnd); [reflexivity|].
    simpl; intuition discriminate.
  - apply (proj1 (proj2 (proj2 (proj2 (proj2 (proj2
             (setBuildTarget_buildsTarget step "all" false Hnd))))))).
    + reflexivity.
    + simpl; auto.
  - apply (setBuildTarget_buildsTarget step "docs" true Hnd).
    simpl; intuition.
  - apply (setBuildTarget_buildsTarget step "all" false Hnd).
Defined.

(** ** Remarks on the option mapping *)

(** The flag groups follow the enumeration order of the mapping: with the
    revision enumerated before the stacked toggle, [-r 42] comes first. *)
Remark cloneArguments_enumeration_order :
  cloneArguments ordinal "A" "B"
    (supplied ordinal [(RevisionCloneOptionId, String_ "42");
                       (StackedCloneOptionId, Bool true)])
  = Returned ["-r"; "42"; "--stacked"; "A"; "B"].
Proof. reflexivity. Qed.

(** The helper shared by pull and push has no assertion of its own for an
    id it does not know: the pull and push toggles pass through it. *)
Remark commonPullOrPushArguments_passes_unknown :
  commonPullOrPushArguments ordinal
    (supplied ordinal [(LocalPullOptionId, Bool true);
                       (CreatePrefixPushOptionId, Bool true)])
  = Returned [].
Proof. reflexivity. Qed.

(** The example of the branch reader: a bound branch. *)
Remark synchronousBranchQuery_bound_example :
  synchronousBranchQuery ".bzr" "/"%char
    (fun _ => Some ["bound = True"; "bound_location = /remote/path"]) "/repo"
  = mkBranchInfo "/remote/path" true.
Proof. reflexivity. Qed.

(* ===================================================================== *)
(** * Further properties                                                  *)
(* ===================================================================== *)

(** ** The option loops in closed form *)

Lemma foreach_skips {A S : Type} (l : list A) (body : A -> S -> outcome S) :
  (forall x, In x l -> forall s, body x s = Returned s) ->
  forall s, foreach l body s = Returned s.
Proof.
  induction l as [|x l IH]; intros Hbody s; simpl; [reflexivity|].
  rewrite (Hbody x (or_introl eq_refl)); simpl.
  apply IH; intros y Hy; apply Hbody; now right.
Qed.

Ltac split_tagged H :=
  let Hid := fresh "Hid" in
  let Hty := fresh "Hty" in
  destruct H as [Hid Hty]; simpl in Hid, Hty;
  repeat (destruct Hid as [Hid|Hid]; [subst|]); try contradiction.

Ltac tokens_of_entry idValue idValue_inj entries Hnd Hwt :=
  let id := fresh "id" in
  let v := fresh "v" in
  let args := fresh "args" in
  let Hin := fresh "Hin" in
  let Ht := fresh "Ht" in
  intros id v args Hin; cbv zeta;
  rewrite ?(value_supplied idValue idValue_inj entries id v Hnd Hin),
          !(isCase_idValue idValue idValue_inj);
  pose proof (proj1 (Forall_forall _ _) Hwt _ Hin) as Ht;
  unfold addBoolArgument, addRevisionArgument;
  split_tagged Ht; destruct v as [|[]|[]|]; try discriminate; simpl;
  rewrite ?app_nil_r, ?append_empty_r; try reflexivity.

Section ClosedForms.

Variable idValue : ExtraOptionId -> Z.
Hypothesis idValue_inj : forall a b, idValue a = idValue b -> a = b.



End ClosedForms.

(** ** Pull and push *)

Section PullPushProperties.

Variable idValue : ExtraOptionId -> Z.
Hypothesis idValue_inj : forall a b, idValue a = idValue b -> a = b.

(** X1.  With recognized, correctly tagged pull options the list is: the
    tokens of the shared options (remember, overwrite, revision) in
    enumeration order, then [--local] when it is supplied true, then the
    source location unless it is empty.  The local toggle therefore never
    precedes a shared flag, wherever the mapping enumerates it. *)
Theorem pullArguments_tokens :
  forall (srcLocation : QString) (entries : list (ExtraOptionId * QVariant)),
    NoDup (map fst entries) ->
    Forall (wellTagged pullOptionIds) entries ->
    pullArguments idValue srcLocation (supplied idValue entries)
    = Returned (flat_map commonTokens entries ++ flat_map pullTokens entries
                  ++ optional srcLocation).
Proof.
  intros srcLocation entries Hnd Hwt.
  unfold pullArguments, commonPullOrPushArguments, optional.
  rewrite (foreach_keys_tokens idValue _ commonTokens entries);
    [|tokens_of_entry idValue idValue_inj entries Hnd Hwt].
  cbn [bind app].
  rewrite (foreach_keys_tokens idValue _ pullTokens entries);
    [|tokens_of_entry idValue idValue_inj entries Hnd Hwt].
  cbn [bind]; destruct (isEmpty srcLocation); simpl;
    rewrite ?app_nil_r, <- ?app_assoc; reflexivity.
Qed.

(** X2.  With recognized, correctly tagged push options the list is: the
    tokens of the shared options in enumeration order, then the push
    toggles ([--use-existing-dir], [--create-prefix]) in enumeration order,
    then the destination location unless it is empty. *)
Theorem pushArguments_tokens :
  forall (dstLocation : QString) (entries : list (ExtraOptionId * QVariant)),
    NoDup (map fst entries) ->
    Forall (wellTagged pushOptionIds) entries ->
    pushArguments idValue dstLocation (supplied idValue entries)
    = Returned (flat_map commonTokens entries ++ flat_map pushTokens entries
                  ++ optional dstLocation).
Proof.
  intros dstLocation entries Hnd Hwt.
  unfold pushArguments, commonPullOrPushArguments, optional.
  rewrite (foreach_keys_tokens idValue _ commonTokens entries);
    [|tokens_of_entry idValue idValue_inj entries Hnd Hwt].
  cbn [bind app].
  rewrite (foreach_keys_tokens idValue _ pushTokens entries);
    [|tokens_of_entry idValue idValue_inj entries Hnd Hwt].
  cbn [bind]; destruct (isEmpty dstLocation); simpl;
    rewrite ?app_nil_r, <- ?app_assoc; reflexivity.
Qed.

(** X3.  When every key of the mapping is one of the three shared ids,
    pull and push build the same list for the same location, or both end in
    the assertion: their own loops add nothing. *)
Theorem pullArguments_pushArguments_shared :
  forall (location : QString) (extraOptions : ExtraCommandOptions),
    (forall k, In k (keys extraOptions) -> In k (map idValue commonOptionIds)) ->
    pullArguments idValue location extraOptions
    = pushArguments idValue location extraOptions.
Proof.
  intros location extraOptions Hshared; unfold pullArguments, pushArguments.
  destruct (commonPullOrPushArguments idValue extraOptions) as [args0|];
    [cbn [bind]|reflexivity].
  assert (Hcase : forall k, In k (keys extraOptions) ->
                    exists id, In id commonOptionIds /\ k = idValue id).
  { intros k Hin; apply Hshared, in_map_iff in Hin as (id & <- & Hid); eauto. }
  rewrite !foreach_skips; [reflexivity| |];
    intros k Hin args; destruct (Hcase k Hin) as (id & Hid & ->); cbv zeta;
    rewrite !(isCase_idValue idValue idValue_inj); simpl in Hid;
    repeat (destruct Hid as [Hid|Hid]; [subst id|]); try contradiction;
    reflexivity.
Qed.



End PullPushProperties.

(** X6.  The shared helper has no assertion for ids it has no case for:
    on a mapping without any of the three shared ids it returns the empty
    list, whatever the keys and values are. *)
Theorem commonPullOrPushArguments_ignores :
  forall (idValue : ExtraOptionId -> Z) (extraOptions : ExtraCommandOptions),
    (forall k, In k (keys extraOptions) ->
       ~ In k (map idValue commonOptionIds)) ->
    commonPullOrPushArguments idValue extraOptions = Returned [].
Proof.
  intros idValue extraOptions Hk; unfold commonPullOrPushArguments.
  apply foreach_skips; intros k Hin args; cbv zeta.
  rewrite !(isCase_unrecognized idValue commonOptionIds k _ (Hk k Hin))
    by (simpl; auto).
  reflexivity.
Qed.

Ltac nodup_ids :=
  repeat (apply NoDup_cons || apply NoDup_nil); simpl; intuition discriminate.

Ltac all_tagged :=
  repeat (apply Forall_cons || apply Forall_nil); split; simpl; auto 20.

(** A pull that remembers the location, at revision 3, local, with the
    local toggle enumerated first. *)
Lemma pullArguments_tokens_witness :
  let entries := [(LocalPullOptionId, Bool true);
                  (RememberPullOrPushOptionId, Bool true);
                  (OverwritePullOrPushOptionId, Bool false);
                  (RevisionPullOrPushOptionId, String_ "3")] in
  NoDup (map fst entries)
  /\ Forall (wellTagged pullOptionIds) entries
  /\ pullArguments ordinal "lp:project" (supplied ordinal entries)
     = Returned ["--remember"; "-r"; "3"; "--local"; "lp:project"].
Proof.
  intros entries.
  assert (Hnd : NoDup (map fst entries)) by nodup_ids.
  assert (Hwt : Forall (wellTagged pullOptionIds) entries) by all_tagged.
  split; [exact Hnd|split; [exact Hwt|]].
  exact (pullArguments_tokens ordinal ordinal_inj "lp:project" entries Hnd Hwt).
Defined.

(** A push that creates the prefix and overwrites, to no explicit
    location. *)
Lemma pushArguments_tokens_witness :
  let entries := [(CreatePrefixPushOptionId, Bool true);
                  (OverwritePullOrPushOptionId, Bool true);
                  (UseExistingDirPushOptionId, Bool false)] in
  NoDup (map fst entries)
  /\ Forall (wellTagged pushOptionIds) entries
  /\ pushArguments ordinal "" (supplied ordinal entries)
     = Returned ["--overwrite"; "--create-prefix"].
Proof.
  intros entries.
  assert (Hnd : NoDup (map fst entries)) by nodup_ids.
  assert (Hwt : Forall (wellTagged pushOptionIds) entries) by all_tagged.
  split; [exact Hnd|split; [exact Hwt|]].
  exact (pushArguments_tokens ordinal ordinal_inj "" entries Hnd Hwt).
Defined.

Lemma pullArguments_pushArguments_shared_witness :
  pullArguments ordinal "lp:project"
    [(13, String_ "12"); (11, Bool true)]%Z
  = pushArguments ordinal "lp:project"
      [(13, String_ "12"); (11, Bool true)]%Z.
Proof.
  apply (pullArguments_pushArguments_shared ordinal ordinal_inj).
  simpl; intros k [<-|[<-|[]]]; auto.
Defined.

(** The key 42 of the diff widget and a clone toggle, handed to the
    helper. *)
Lemma commonPullOrPushArguments_ignores_witness :
  commonPullOrPushArguments ordinal
    [(42, String_ "--diff-options=-w"); (1, Bool true)]%Z = Returned [].
Proof.
  apply (commonPullOrPushArguments_ignores ordinal).
  simpl; intros k [<-|[<-|[]]]; intuition discriminate.
Defined.



(** ** Builders without options *)

(** X7.  An optional argument that is empty is left out: the lists for
    update, revert, revert-all and status never hold an empty string, and
    the list for import holds one only if the files do. *)
Theorem optional_arguments_left_out :
  forall (file revision : QString) (files : QStringList),
    ~ In EmptyString (updateArguments revision)
    /\ ~ In EmptyString (revertArguments file revision)
    /\ ~ In EmptyString (revertAllArguments revision)
    /\ ~ In EmptyString (statusArguments file)
    /\ (In EmptyString (importArguments files) -> In EmptyString files).
Proof.
  intros file revision files.
  unfold updateArguments, revertArguments, revertAllArguments, statusArguments,
         importArguments.
  repeat split.
  - destruct revision; simpl; intuition discriminate.
  - destruct revision, file; simpl; intuition discriminate.
  - destruct revision; simpl; intuition discriminate.
  - destruct file; simpl; intuition discriminate.
  - destruct files; simpl; auto.
Qed.

(** X8.  The revision part is shared: revert-all is update; revert is
    update followed by the file unless it is empty; annotate is [--long],
    then update, then the file, which is passed even when it is empty. *)
Theorem revision_arguments_compose :
  forall (file revision : QString) (lineNumber : Z),
    revertAllArguments revision = updateArguments revision
    /\ revertArguments file revision
       = updateArguments revision ++ optional file
    /\ annotateArguments file revision lineNumber
       = "--long" :: updateArguments revision ++ [file]
    /\ last (annotateArguments file revision lineNumber) EmptyString = file.
Proof.
  intros file revision lineNumber.
  unfold revertAllArguments, revertArguments, annotateArguments,
         updateArguments, optional.
  repeat split; destruct revision, file; reflexivity.
Qed.

(** ** Status lines, continued *)








(** X10.  On a line made of three flag columns, one more character and a
    path, the path comes back as it is, spaces included, and the state is
    that of the three flag columns alone. *)
Theorem parseStatusLine_columns :
  forall (a b c d : QChar) (path : QString),
    parseStatusLine (String a (String b (String c (String d path))))
    = (fst (parseStatusLine (String a (String b (String c EmptyString)))),
       path).
Proof.
  intros a b c d path; unfold parseStatusLine, at_.
  cbn [isEmpty negb String.length Nat.leb String.get fst snd mid].
  rewrite !versionFlag_cascade; cbn [fst snd].
  rewrite !contentFlag_cascade; cbn [fst snd].
  rewrite !execFlag_cascade; now destruct path.
Qed.

(** ** The branch configuration scan, continued *)

Lemma isEmpty_false (s : QString) : isEmpty s = false <-> s <> EmptyString.
Proof. destruct s; simpl; split; intros H; congruence. Qed.

Lemma lastChar_nonempty (s : QString) :
  s <> EmptyString -> lastChar s <> EmptyString.
Proof.
  induction s as [|c r IH]; intros Hne; [now contradiction Hne|].
  destruct r as [|c' r']; [discriminate | apply IH; discriminate].
Qed.

(** A capture is never empty: the group takes at least one character. *)
Lemma capture_nonempty (s cap : QString) :
  capture s = Some cap -> cap <> EmptyString.
Proof.
  unfold capture; destruct (isEmpty s) eqn:Es; [discriminate|].
  destruct (isEmpty (skipSpaces s)) eqn:Er; intros H; injection H as <-.
  - now apply lastChar_nonempty, isEmpty_false.
  - now apply isEmpty_false.
Qed.

Lemma indexInFrom_nonempty (key s : QString) (position p : nat) (cap : QString) :
  indexInFrom key s position = Some (p, cap) -> cap <> EmptyString.
Proof.
  revert position; induction s as [|c r IH]; intros position; simpl.
  - destruct (matchHere key EmptyString) as [cap'|] eqn:E; [|discriminate].
    intros H; injection H as _ <-; revert E; unfold matchHere.
    destruct (stripPrefix key EmptyString) as [afterKey|]; [|discriminate].
    destruct (skipSpaces afterKey) as [|[[] [] [] [] [] [] [] []] afterEq];
      try discriminate; apply capture_nonempty.
  - destruct (matchHere key (String c r)) as [cap'|] eqn:E; [|apply IH].
    intros H; injection H as _ <-; revert E; unfold matchHere.
    destruct (stripPrefix key (String c r)) as [afterKey|]; [|discriminate].
    destruct (skipSpaces afterKey) as [|[[] [] [] [] [] [] [] []] afterEq];
      try discriminate; apply capture_nonempty.
Qed.

Lemma captured_nonempty (rx line cap : QString) :
  captured rx line = Some cap -> cap <> EmptyString.
Proof.
  unfold captured, indexIn.
  destruct (indexInFrom rx line 0) as [[p c]|] eqn:E; simpl; [|discriminate].
  intros H; injection H as <-; now apply indexInFrom_nonempty in E.
Qed.

Lemma locationOf_nonempty (line cap : QString) :
  locationOf line = Some cap -> cap <> EmptyString.
Proof. apply captured_nonempty. Qed.

Lemma boundOf_nonempty (line cap : QString) :
  boundOf line = Some cap -> cap <> EmptyString.
Proof.
  unfold boundOf; destruct (indexIn branchLocationRx line); [discriminate|].
  apply captured_nonempty.
Qed.

(** A value is non-empty after the lines exactly when a line assigned it or
    it was non-empty before. *)
Lemma lastMatchFrom_found (assigned : QString -> option QString)
  (lines : list QString) :
  (forall line cap, assigned line = Some cap -> cap <> EmptyString) ->
  forall found : QString,
    lastMatchFrom assigned lines found <> EmptyString
    <-> (exists line, In line lines /\ assigned line <> None)
        \/ found <> EmptyString.
Proof.
  intros Hne; unfold lastMatchFrom.
  induction lines as [|line rest IH]; intros found; simpl.
  - split; [now right | intros [(l & [] & _)|H]; exact H].
  - rewrite IH; destruct (assigned line) as [cap|] eqn:E; split.
    + intros _; left; exists line; split; [now left | congruence].
    + intros _; right; now apply (Hne line).
    + intros [(l & Hin & Hl)|H]; [left; exists l; auto | now right].
    + intros [(l & [<-|Hin] & Hl)|H];
        [congruence | left; exists l; auto | now right].
Qed.

Lemma In_firstn {A : Type} (n : nat) (l : list A) (x : A) :
  In x (firstn n l) -> In x l.
Proof.
  intros H; rewrite <- (firstn_skipn n l); apply in_or_app; now left.
Qed.

(** What the scan leaves for one of the two values: non-empty exactly when
    the file has a line that assigns it. *)
Lemma scan_found (assigned other : QString -> option QString)
  (lines : list QString) (n : nat) :
  (forall line cap, assigned line = Some cap -> cap <> EmptyString) ->
  n <= List.length lines ->
  (n < List.length lines ->
   lastMatchFrom assigned (firstn n lines) EmptyString <> EmptyString) ->
  lastMatchFrom assigned (firstn n lines) EmptyString <> EmptyString
  <-> exists line, In line lines /\ assigned line <> None.
Proof.
  intros Hne Hle Hstop; split.
  - intros H; apply (lastMatchFrom_found assigned _ Hne) in H
      as [(l & Hin & Hl)|H]; [|now contradiction H].
    exists l; split; [now apply In_firstn in Hin | exact Hl].
  - intros Hex.
    destruct (Nat.eq_dec n (List.length lines)) as [->|Hn].
    + rewrite firstn_all; apply (lastMatchFrom_found assigned _ Hne); now left.
    + apply Hstop; lia.
Qed.

(** X11.  After the scan a value is non-empty exactly when some line of
    the file assigns it: a location is found if and only if a line matches
    the [bound_location] expression, a bound flag if and only if a line
    matches the [bound] expression and not the [bound_location] one. *)
Theorem branchConfLoop_found :
  forall lines : list QString,
    let values := scannedValues (branchConfLoop lines EmptyString EmptyString) in
    (fst values <> EmptyString
     <-> exists line, In line lines /\ locationOf line <> None)
    /\ (snd values <> EmptyString
        <-> exists line, In line lines /\ boundOf line <> None).
Proof.
  intros lines.
  destruct (branchConfLoop_from lines EmptyString EmptyString)
    as (n & Hle & Hloop & Hstop & _).
  cbv zeta; rewrite Hloop; unfold scannedValues; cbn [fst snd].
  split.
  - apply (scan_found locationOf boundOf lines n locationOf_nonempty Hle).
    intros Hlt; apply Hstop in Hlt; apply orb_false_elim in Hlt as [H _].
    now apply isEmpty_false.
  - apply (scan_found boundOf locationOf lines n boundOf_nonempty Hle).
    intros Hlt; apply Hstop in Hlt; apply orb_false_elim in Hlt as [_ H].
    now apply isEmpty_false.
Qed.

(** Once the scan of some lines ends with both values, further lines
    change nothing. *)
Lemma branchConfLoop_append (lines tail : list QString) :
  forall branchLocation isBranchBound : QString,
    let values :=
      scannedValues (branchConfLoop lines branchLocation isBranchBound) in
    isEmpty (fst values) || isEmpty (snd values) = false ->
    scannedValues (branchConfLoop (lines ++ tail) branchLocation isBranchBound)
    = values.
Proof.
  induction lines as [|line rest IH]; intros loc bound; cbv zeta.
  - simpl; unfold scannedValues; cbn [fst snd]; intros Hfound.
    destruct tail as [|t tail]; simpl; [reflexivity | now rewrite Hfound].
  - destruct (isEmpty loc || isEmpty bound) eqn:Hcond.
    + rewrite <- app_comm_cons, !branchConfLoop_step by exact Hcond.
      apply IH.
    + simpl; rewrite Hcond; reflexivity.
Qed.

(** X12.  When the scan of a file leaves both values non-empty, lines
    appended to the file do not change them. *)
Theorem branchConfLoop_appended_lines :
  forall lines tail : list QString,
    let values := scannedValues (branchConfLoop lines EmptyString EmptyString) in
    fst values <> EmptyString ->
    snd values <> EmptyString ->
    scannedValues (branchConfLoop (lines ++ tail) EmptyString EmptyString)
    = values.
Proof.
  intros lines tail values Hloc Hbound; apply branchConfLoop_append.
  apply isEmpty_false in Hloc, Hbound; fold values.
  now rewrite Hloc, Hbound.
Qed.

Lemma branchConfLoop_appended_lines_witness :
  let lines := ["bound_location = /remote/path"; "bound = True"] in
  let tail := ["bound = False"; "bound_location = /elsewhere"] in
  scannedValues (branchConfLoop (lines ++ tail) EmptyString EmptyString)
  = ("/remote/path", "True").
Proof.
  intros lines tail.
  apply (branchConfLoop_appended_lines lines tail); discriminate.
Defined.

Lemma branchConfLoop_found_witness :
  let lines := ["parent_location = /remote/parent"; "bound = True"] in
  (fst (scannedValues (branchConfLoop lines EmptyString EmptyString))
   <> EmptyString
   <-> exists line, In line lines /\ locationOf line <> None)
  /\ (snd (scannedValues (branchConfLoop lines EmptyString EmptyString))
      <> EmptyString
      <-> exists line, In line lines /\ boundOf line <> None).
Proof.
  intros lines; exact (branchConfLoop_found lines).
Defined.

(** ** Files without repeated keys *)

Lemma assigning_app (assigned : QString -> option QString)
  (l1 l2 : list QString) :
  assigning assigned (l1 ++ l2) = assigning assigned l1 + assigning assigned l2.
Proof. unfold assigning; now rewrite filter_app, length_app. Qed.

Lemma captured_indexIn (rx line : QString) :
  captured rx line
  = match indexIn rx line with
    | Some (_, cap) => Some cap
    | None => None
    end.
Proof. unfold captured; now destruct (indexIn rx line) as [[p cap]|]. Qed.

(** Lines that do not assign leave the value alone. *)
Lemma lastMatchFrom_none (rx : QString) (lines : list QString) :
  assigning (captured rx) lines = 0 ->
  forall found,
    lastMatchFrom (captured rx) lines found = found
    /\ firstMatch rx lines = EmptyString.
Proof.
  unfold lastMatchFrom, assigning.
  induction lines as [|line rest IH]; simpl; intros Hz found; [now split|].
  revert Hz; rewrite captured_indexIn.
  destruct (indexIn rx line) as [[p cap]|]; simpl;
    [discriminate | intros Hz; now apply IH].
Qed.

(** With one assigning line, the last assignment is the first match. *)
Lemma lastMatchFrom_single (rx : QString) (lines : list QString) :
  assigning (captured rx) lines = 1 ->
  forall found, lastMatchFrom (captured rx) lines found = firstMatch rx lines.
Proof.
  induction lines as [|line rest IH]; intros Hone found; [discriminate Hone|].
  revert Hone; unfold lastMatchFrom, assigning; simpl.
  rewrite captured_indexIn.
  destruct (indexIn rx line) as [[p cap]|]; simpl; intros Hone.
  - injection Hone as Hz; now apply (lastMatchFrom_none rx rest Hz cap).
  - now apply IH.
Qed.

Lemma firstMatch_app (rx : QString) (l1 l2 : list QString) :
  assigning (captured rx) l1 <> 0 ->
  firstMatch rx (l1 ++ l2) = firstMatch rx l1.
Proof.
  induction l1 as [|line rest IH]; [intros H; now contradiction H|].
  unfold assigning; simpl; rewrite captured_indexIn.
  destruct (indexIn rx line) as [[p cap]|]; simpl; [reflexivity | apply IH].
Qed.

Lemma lastMatchFrom_ext (f g : QString -> option QString)
  (lines : list QString) :
  (forall line, In line lines -> f line = g line) ->
  forall found, lastMatchFrom f lines found = lastMatchFrom g lines found.
Proof.
  unfold lastMatchFrom; induction lines as [|line rest IH]; intros Hfg found;
    simpl; [reflexivity|].
  rewrite (Hfg line (or_introl eq_refl)).
  apply IH; intros l Hl; apply Hfg; now right.
Qed.

(** The value the scan leaves when at most one line assigns it. *)
Lemma scan_first_match (rx : QString) (lines : list QString) (n : nat) :
  n <= List.length lines ->
  assigning (captured rx) lines <= 1 ->
  (n < List.length lines ->
   lastMatchFrom (captured rx) (firstn n lines) EmptyString <> EmptyString) ->
  lastMatchFrom (captured rx) (firstn n lines) EmptyString
  = firstMatch rx lines.
Proof.
  intros Hle Hone Hstop.
  rewrite <- (firstn_skipn n lines) in Hone |- * at 2.
  rewrite assigning_app in Hone.
  destruct (assigning (captured rx) (firstn n lines)) as [|[|k]] eqn:E;
    [| |lia].
  - destruct (lastMatchFrom_none rx _ E EmptyString) as [Hl Hf].
    destruct (Nat.eq_dec n (List.length lines)) as [Hn|Hn].
    + rewrite Hl; subst n; rewrite skipn_all, app_nil_r; now symmetry.
    + exfalso; apply Hstop; [lia | exact Hl].
  - rewrite firstMatch_app by (rewrite E; discriminate).
    now apply lastMatchFrom_single.
Qed.

(** X13.  In a file where each of the two expressions matches at most one
    line, and no line matches both, the first match for each key gives the
    value: the reading "first match wins" is right for files without
    repeated keys. *)
Theorem branchConfLoop_unique_keys :
  forall lines : list QString,
    assigning (captured branchLocationRx) lines <= 1 ->
    assigning (captured isBranchBoundRx) lines <= 1 ->
    (forall line, In line lines ->
       captured branchLocationRx line <> None ->
       captured isBranchBoundRx line = None) ->
    firstMatchWins lines.
Proof.
  intros lines Hloc Hbound Hboth.
  destruct (branchConfLoop_from lines EmptyString EmptyString)
    as (n & Hle & Hloop & Hstop & _).
  unfold firstMatchWins; rewrite Hloop.
  assert (Hext : forall line, In line (firstn n lines) ->
                   boundOf line = captured isBranchBoundRx line).
  { intros line Hin; apply In_firstn in Hin; unfold boundOf.
    pose proof (Hboth line Hin) as H; unfold captured in H |- *.
    destruct (indexIn branchLocationRx line); [|reflexivity].
    symmetry; apply H; discriminate. }
  split.
  - apply (scan_first_match branchLocationRx lines n Hle Hloc).
    intros Hlt; apply Hstop in Hlt; apply orb_false_elim in Hlt as [H _].
    now apply isEmpty_false.
  - rewrite (lastMatchFrom_ext _ _ _ Hext).
    apply (scan_first_match isBranchBoundRx lines n Hle Hbound).
    intros Hlt; apply Hstop in Hlt; apply orb_false_elim in Hlt as [_ H].
    rewrite (lastMatchFrom_ext _ _ _ Hext) in H.
    now apply isEmpty_false.
Qed.

Lemma branchConfLoop_unique_keys_witness :
  firstMatchWins ["parent_location = /remote/parent"; "bound = True";
                  "push_location = /remote/push";
                  "bound_location = /remote/path"].
Proof.
  apply branchConfLoop_unique_keys.
  - vm_compute; lia.
  - vm_compute; lia.
  - intros line [<-|[<-|[<-|[<-|[]]]]]; vm_compute; congruence.
Defined.

(** ** Bound without a location *)

Lemma branchConfLoop_no_location (ts : list QString) :
  (forall line, In line ts -> locationOf line = None) ->
  forall branchLocation isBranchBound,
    fst (scannedValues (branchConfLoop ts branchLocation isBranchBound))
    = branchLocation.
Proof.
  induction ts as [|line rest IH]; intros Hnone loc bound; simpl; [reflexivity|].
  destruct (isEmpty loc || isEmpty bound); [|reflexivity].
  pose proof (Hnone line (or_introl eq_refl)) as Hl; unfold locationOf in Hl.
  destruct (indexIn branchLocationRx line) as [[p cap]|]; [discriminate Hl|].
  destruct (indexIn isBranchBoundRx line) as [[p cap]|];
    apply IH; intros l Hin; apply Hnone; now right.
Qed.

(** X14.  A configuration that says the branch is bound and has no
    [bound_location] line is reported as bound, with the empty location:
    the location is not checked before it is returned. *)
Theorem synchronousBranchQuery_bound_nowhere :
  forall (BAZAARREPO : QString) (separator : QChar)
         (readableFile : QString -> option (list QString))
         (repositoryRoot : QString) (ts : list QString),
    readableFile (branchConfFile BAZAARREPO separator repositoryRoot) = Some ts ->
    (forall line, In line ts -> locationOf line = None) ->
    isTrueToken (snd (branchConfLoop ts EmptyString EmptyString)) ->
    synchronousBranchQuery BAZAARREPO separator readableFile repositoryRoot
    = mkBranchInfo EmptyString true.
Proof.
  intros repo sep files root ts Hfile Hnone Htrue.
  unfold synchronousBranchQuery; rewrite Hfile.
  pose proof (branchConfLoop_no_location ts Hnone EmptyString EmptyString) as Hl.
  destruct (branchConfLoop ts EmptyString EmptyString) as [[rest loc] bound].
  unfold scannedValues in Hl; simpl in Hl, Htrue; subst loc.
  now rewrite (bound_test_complete _ Htrue).
Qed.

Lemma synchronousBranchQuery_bound_nowhere_witness :
  synchronousBranchQuery ".bzr" "/"%char
    (fun _ => Some ["parent_location = /remote/parent"; "bound =  TRUE "])
    "/work/trunk"
  = mkBranchInfo EmptyString true.
Proof.
  apply (synchronousBranchQuery_bound_nowhere ".bzr" "/"%char _ "/work/trunk"
           ["parent_location = /remote/parent"; "bound =  TRUE "] eq_refl).
  - intros line [<-|[<-|[]]]; reflexivity.
  - exists EmptyString, " ", "T"%char, "R"%char, "U"%char, "E"%char.
    simpl; intuition.
Defined.

(** ** Settings of the make step *)

Lemma mapValue_insert (key : QString) (v : QVariant) (m : QVariantMap) :
  mapValue (insert key v m) key = v.
Proof.
  induction m as [|[k w] r IH]; simpl.
  - now rewrite String.eqb_refl.
  - destruct (String.compare key k) eqn:E; simpl.
    + now rewrite String.eqb_refl.
    + now rewrite String.eqb_refl.
    + destruct (String.eqb_spec k key) as [->|_]; [|exact IH].
      pose proof (String.compare_antisym key key) as A.
      rewrite E in A; discriminate A.
Qed.

Lemma mapValue_insert_other (key key' : QString) (v : QVariant) (m : QVariantMap) :
  key <> key' -> mapValue (insert key v m) key' = mapValue m key'.
Proof.
  intros Hne; induction m as [|[k w] r IH]; simpl.
  - now rewrite (proj2 (String.eqb_neq key key') Hne).
  - destruct (String.compare key k) eqn:E; simpl.
    + apply String.compare_eq_iff in E; subst k.
      now rewrite (proj2 (String.eqb_neq key key') Hne).
    + now rewrite (proj2 (String.eqb_neq key key') Hne).
    + now rewrite IH.
Qed.

Lemma mapValue_absent (m : QVariantMap) (key : QString) :
  ~ In key (map fst m) -> mapValue m key = Invalid.
Proof.
  induction m as [|[k w] r IH]; simpl; intros Hnotin; [reflexivity|].
  destruct (String.eqb_spec k key) as [->|_]; [tauto | apply IH; tauto].
Qed.

(** Two suffixes give two keys. *)
Lemma withSuffix_inj (id a b : QString) :
  withSuffix id a = withSuffix id b -> a = b.
Proof.
  unfold withSuffix; induction id as [|c id IH]; simpl; intros H;
    [exact H | injection H as H; now apply IH].
Qed.

(** X15.  What [toMap] stores, [fromMap] reads back: the build targets, the
    arguments, the command override and the clean flag of the step, whatever
    the map of the base class holds; the other fields are not touched.  In
    particular a step that reads its own map is unchanged. *)
Theorem fromMap_toMap :
  forall (id : QString) (base : QVariantMap) (step other : MakeStep),
    fromMap id (toMap id base step) other
    = {| m_buildTargets := m_buildTargets step;
         m_makeArguments := m_makeArguments step;
         m_makeCommand := m_makeCommand step;
         m_clean := m_clean step;
         m_availableTargets := m_availableTargets other;
         buildConfiguration := buildConfiguration other;
         target := target other |}
    /\ fromMap id (toMap id base step) step = step.
Proof.
  assert (G : forall id base step other,
             fromMap id (toMap id base step) other
             = {| m_buildTargets := m_buildTargets step;
                  m_makeArguments := m_makeArguments step;
                  m_makeCommand := m_makeCommand step;
                  m_clean := m_clean step;
                  m_availableTargets := m_availableTargets other;
                  buildConfiguration := buildConfiguration other;
                  target := target other |}).
  { intros id base step other; unfold fromMap, toMap; cbv zeta.
    rewrite mapValue_insert.
    rewrite (mapValue_insert_other _ (withSuffix id MAKE_COMMAND_SUFFIX))
      by (intros H; apply withSuffix_inj in H; discriminate H).
    rewrite mapValue_insert.
    rewrite 2!(mapValue_insert_other _ (withSuffix id MAKE_ARGUMENTS_SUFFIX))
      by (intros H; apply withSuffix_inj in H; discriminate H).
    rewrite mapValue_insert.
    rewrite 3!(mapValue_insert_other _ (withSuffix id BUILD_TARGETS_SUFFIX))
      by (intros H; apply withSuffix_inj in H; discriminate H).
    rewrite mapValue_insert.
    reflexivity. }
  intros id base step other; split; [apply G|].
  rewrite G; now destruct step.
Qed.

(** X16.  [toMap] adds to the map of the base class: every key other than
    its four keeps the value it has there. *)
Theorem toMap_keeps_base :
  forall (id key : QString) (base : QVariantMap) (step : MakeStep),
    ~ In key (map (withSuffix id)
                [BUILD_TARGETS_SUFFIX; MAKE_ARGUMENTS_SUFFIX;
                 MAKE_COMMAND_SUFFIX; CLEAN_SUFFIX]) ->
    mapValue (toMap id base step) key = mapValue base key.
Proof.
  intros id key base step Hkey; unfold toMap; cbv zeta; simpl in Hkey.
  rewrite !mapValue_insert_other; [reflexivity | | | |];
    intros H; apply Hkey; rewrite H; auto.
Qed.

Lemma toMap_keeps_base_witness :
  mapValue (toMap "GenericProjectManager.GenericMakeStep"
              [("ProjectExplorer.ProjectConfiguration.Id",
                String_ "GenericProjectManager.GenericMakeStep")]
              (mkMakeStep ["all"] "-j4" "" false ["all"] None
                 (mkTarget None None)))
    "ProjectExplorer.ProjectConfiguration.Id"
  = String_ "GenericProjectManager.GenericMakeStep".
Proof.
  apply (toMap_keeps_base "GenericProjectManager.GenericMakeStep"
           "ProjectExplorer.ProjectConfiguration.Id").
  simpl; intuition discriminate.
Defined.

(** X17.  A map without the four keys resets the step: no build targets,
    empty arguments, no command override, clean off. *)
Theorem fromMap_missing_keys :
  forall (id : QString) (map : QVariantMap) (step : MakeStep),
    (forall suffix,
        In suffix [BUILD_TARGETS_SUFFIX; MAKE_ARGUMENTS_SUFFIX;
                   MAKE_COMMAND_SUFFIX; CLEAN_SUFFIX] ->
        ~ In (withSuffix id suffix) (List.map fst map)) ->
    let step' := fromMap id map step in
    m_buildTargets step' = []
    /\ m_makeArguments step' = EmptyString
    /\ m_makeCommand step' = EmptyString
    /\ m_clean step' = false.
Proof.
  intros id map step Habsent; unfold fromMap; cbn [m_buildTargets
    m_makeArguments m_makeCommand m_clean].
  rewrite !mapValue_absent by (apply Habsent; simpl; auto).
  repeat split.
Qed.

Lemma fromMap_missing_keys_witness :
  let step := mkMakeStep ["all"] "-j4" "gmake" true ["all"] None
                (mkTarget None None) in
  let map := [("Other.Step.MakeCommand", String_ "nmake")] in
  m_buildTargets (fromMap "Make.Step" map step) = []
  /\ m_makeArguments (fromMap "Make.Step" map step) = EmptyString
  /\ m_makeCommand (fromMap "Make.Step" map step) = EmptyString
  /\ m_clean (fromMap "Make.Step" map step) = false.
Proof.
  intros step map; apply (fromMap_missing_keys "Make.Step" map step).
  intros suffix [<-|[<-|[<-|[<-|[]]]]]; simpl; intuition discriminate.
Defined.

(** ** Build targets with repetitions *)

Lemma contains_count (l : QStringList) (s : QString) :
  contains l s = negb (count_occ string_dec l s =? 0)%nat.
Proof.
  unfold contains; induction l as [|x l IH]; simpl; [reflexivity|].
  rewrite IH, String.eqb_sym.
  destruct (string_dec x s) as [->|Hne].
  - now rewrite String.eqb_refl.
  - now rewrite (proj2 (String.eqb_neq x s) Hne).
Qed.

Lemma removeOne_count (l : QStringList) (s : QString) :
  count_occ string_dec (removeOne l s) s = Nat.pred (count_occ string_dec l s).
Proof.
  induction l as [|x l IH]; simpl; [reflexivity|].
  destruct (String.eqb_spec x s) as [->|Hne].
  - now destruct (string_dec s s).
  - simpl; destruct (string_dec x s); [contradiction | exact IH].
Qed.

Lemma removeOne_count_other (l : QStringList) (s t : QString) :
  t <> s ->
  count_occ string_dec (removeOne l s) t = count_occ string_dec l t.
Proof.
  intros Hne; induction l as [|x l IH]; simpl; [reflexivity|].
  destruct (String.eqb_spec x s) as [->|Hx].
  - destruct (string_dec s t); [congruence | reflexivity].
  - simpl; destruct (string_dec x t); now rewrite IH.
Qed.

(** X18.  Without any assumption on the list: switching a target on
    leaves its occurrences as they are, or adds the one that was missing;
    switching it off takes one occurrence away; the occurrences of every
    other target stay.  So a target stored twice, as a settings map may hold
    it, is still built after it was switched off once. *)
Theorem setBuildTarget_occurrences :
  forall (step : MakeStep) (target : QString) (on : bool),
    let old := m_buildTargets step in
    let new := m_buildTargets (setBuildTarget step target on) in
    count_occ string_dec new target
    = (if on then Nat.max 1 (count_occ string_dec old target)
       else Nat.pred (count_occ string_dec old target))
    /\ (forall other, other <> target ->
          count_occ string_dec new other = count_occ string_dec old other)
    /\ buildsTarget (setBuildTarget step target false) target
       = (2 <=? count_occ string_dec old target)%nat.
Proof.
  intros step target on old new.
  assert (Hnew : forall b,
             m_buildTargets (setBuildTarget step target b)
             = if b then (if contains old target then old else old ++ [target])
               else (if contains old target then removeOne old target else old)).
  { intros [|]; simpl; fold old; now destruct (contains old target). }
  subst new; rewrite Hnew; repeat split.
  - pose proof (contains_count old target) as Hc.
    destruct on, (contains old target);
      destruct (count_occ string_dec old target) as [|k] eqn:E;
      try discriminate Hc; try reflexivity.
    + rewrite count_occ_app; simpl; unfold QString in *.
      destruct (string_dec target target); [simpl; lia | congruence].
    + rewrite removeOne_count; unfold QString in *; simpl; lia.
  - intros other Hne.
    destruct on, (contains old target); try reflexivity.
    + rewrite count_occ_app; simpl; unfold QString in *.
      destruct (string_dec target other); [congruence | lia].
    + now apply removeOne_count_other.
  - unfold buildsTarget; rewrite (Hnew false); cbv iota.
    pose proof (contains_count old target) as Hc.
    destruct (contains old target).
    + rewrite contains_count, removeOne_count; unfold QString in *.
      now destruct (count_occ string_dec old target) as [|[|k]].
    + rewrite contains_count; unfold QString in *.
      destruct (count_occ string_dec old target) as [|[|k]];
        [reflexivity | discriminate Hc | discriminate Hc].
Qed.

(** A list as a settings map can hold it, with [all] twice. *)
Lemma setBuildTarget_occurrences_witness :
  let step := mkMakeStep ["all"; "docs"; "all"] "" "" false ["all"; "docs"]
                None (mkTarget None None) in
  count_occ string_dec (m_buildTargets (setBuildTarget step "all" false)) "docs"
  = count_occ string_dec (m_buildTargets step) "docs"
  /\ buildsTarget (setBuildTarget step "all" false) "all" = true.
Proof.
  intros step; split.
  - apply (proj1 (proj2 (setBuildTarget_occurrences step "all" false)));
      discriminate.
  - apply (proj2 (proj2 (setBuildTarget_occurrences step "all" false))).
Defined.

(** X19.  Switching a target on that was not built and off again gives the
    step back; switching on twice is switching on once. *)
Theorem setBuildTarget_on_off :
  forall (step : MakeStep) (target : QString),
    (~ In target (m_buildTargets step) ->
     setBuildTarget (setBuildTarget step target true) target false = step)
    /\ setBuildTarget (setBuildTarget step target true) target true
       = setBuildTarget step target true.
Proof.
  intros step target; split.
  - intros Hnotin; destruct step as [targets a c cl av bc tg].
    simpl in Hnotin; apply contains_false in Hnotin.
    unfold setBuildTarget; simpl; rewrite Hnotin; simpl.
    assert (Hc : contains (targets ++ [target]) target = true)
      by (apply contains_In, in_or_app; right; now left).
    rewrite Hc; f_equal.
    apply contains_false in Hnotin; clear Hc.
    induction targets as [|x l IH]; simpl.
    + now rewrite String.eqb_refl.
    + destruct (String.eqb_spec x target) as [->|_].
      * exfalso; apply Hnotin; now left.
      * f_equal; apply IH; intros H; apply Hnotin; now right.
  - destruct step as [targets a c cl av bc tg]; unfold setBuildTarget; simpl.
    destruct (contains targets target) eqn:Hc; simpl.
    + now rewrite Hc.
    + assert (Hc' : contains (targets ++ [target]) target = true)
        by (apply contains_In, in_or_app; right; now left).
      now rewrite Hc'.
Qed.

Lemma setBuildTarget_on_off_witness :
  let step := mkMakeStep ["all"; "docs"] "-j4" "" false
                ["all"; "docs"; "tests"] None (mkTarget None None) in
  setBuildTarget (setBuildTarget step "tests" true) "tests" false = step.
Proof.
  intros step; apply (proj1 (setBuildTarget_on_off step "tests")).
  simpl; intuition discriminate.
Defined.

(** ** The summary text *)

(** X20.  After [setSummaryText] the summary is the text given; the signal
    is emitted once when the text differs from the summary held and not at
    all when it is the same, so that setting the same text again changes
    nothing. *)
Theorem setSummaryText_signal :
  forall (widget : MakeStepConfigWidget) (text : QString),
    summaryText (setSummaryText widget text) = text
    /\ (text <> summaryText widget ->
        updateSummary (setSummaryText widget text) = S (updateSummary widget))
    /\ (text = summaryText widget -> setSummaryText widget text = widget)
    /\ setSummaryText (setSummaryText widget text) text
       = setSummaryText widget text.
Proof.
  intros widget text; unfold summaryText, setSummaryText.
  destruct (String.eqb_spec text (m_summaryText widget)) as [E|N].
  - repeat split; auto.
    + intros H; now contradiction H.
    + now rewrite (proj2 (String.eqb_eq _ _) E).
  - repeat split; simpl; auto.
    + intros H; now contradiction N.
    + now rewrite String.eqb_refl.
Qed.

Lemma setSummaryText_signal_witness :
  let widget := mkMakeStepConfigWidget "<b>Make:</b> make all" 3 in
  updateSummary (setSummaryText widget "<b>Make:</b> make clean") = 4
  /\ setSummaryText widget "<b>Make:</b> make all" = widget.
Proof.
  intros widget; split.
  - apply (proj1 (proj2 (setSummaryText_signal widget
                           "<b>Make:</b> make clean"))); discriminate.
  - now apply (proj1 (proj2 (proj2 (setSummaryText_signal widget
                                      "<b>Make:</b> make all")))).
Defined.
